(** * Snapshotter (apify autoscaling): a shallow embedding and its properties

    The embedding follows [src/unnamed/part_005] (the [Snapshotter] class)
    line by line.

    Modelling conventions.
    - A JavaScript [Date] is its time value, an integral number of
      milliseconds: [Z].  [a - b] on two dates is their difference in
      milliseconds.
    - A JavaScript [Number] is the rational it denotes, [Q].  Where the
      source multiplies, divides, adds or subtracts numbers that need not
      be whole, the result is the exact one rounded to a double: the
      rounding is a function [round] of the class [Rounding], together with
      the laws of rounding to nearest that the proofs use, so that what is
      proved holds for the rounding of IEEE doubles.  Dates, and the counts
      of bytes and of uses, are whole numbers, and their sums and
      differences are exact.  Overflow to [Infinity] and [NaN] are left
      out, except where the source divides: division by zero and by
      [undefined] is written out there.
    - The three history arrays are [list]s, oldest entry first, as
      [push] / [splice(0, n)] keep them.
    - [try / catch / finally] and the mutation of [this] are threaded
      through a small state-and-exception monad [M]. *)

From Stdlib Require Import ZArith QArith Qround Qminmax Qabs Lia Lqa String.
From stdpp Require Import base list gmap strings pretty.

Local Open Scope Z_scope.

(** ** Numbers *)

(** [x < y] on numbers, as a boolean. *)
Definition Qlt_bool (x y : Q) : bool := negb (Qle_bool y x).

(** [Math.max(a, b)]. *)
Definition Math_max (a b : Q) : Q := if Qle_bool a b then b else a.

(** [!x] for a number that may be [undefined]: [undefined] and [0] are
    falsy. *)
Definition falsy (x : option Q) : bool :=
  match x with
  | None => true
  | Some q => Qeq_bool q 0
  end.

(** The rounding of an exact result to a double (IEEE 754, round to
    nearest), with the laws of it that the properties below rely on: it
    depends on the number only, not on the fraction that denotes it; a
    rounded number is a double, which rounding leaves as it is; rounding
    keeps the order of numbers; and the difference of two doubles is
    rounded to a positive number exactly when it is positive (a difference
    of doubles that is not zero is never rounded to zero). *)
Class Rounding := {
  round : Q -> Q;
  round_compat : forall x y, (x == y)%Q -> (round x == round y)%Q;
  round_idempotent : forall x, (round (round x) == round x)%Q;
  round_monotone : forall x y, (x <= y)%Q -> (round x <= round y)%Q;
  round_sign : forall x y,
    (round x == x)%Q -> (round y == y)%Q -> ((0 < round (x - y))%Q <-> (y < x)%Q);
}.

(** [x] is a double. *)
Definition representable `{Rounding} (x : Q) : Prop := (round x == x)%Q.

(** [x / y > r] where [y] may be [undefined] or [0]:
    [x / undefined] is [NaN] (every comparison is false), [x / 0] is
    [+Infinity] for [x > 0], [NaN] for [x = 0] and [-Infinity] for
    [x < 0]; otherwise the quotient is rounded. *)
Definition div_gt `{Rounding} (x : Q) (y : option Q) (r : Q) : bool :=
  match y with
  | None => false
  | Some m => if Qeq_bool m 0 then Qlt_bool 0 x else Qlt_bool r (round (x / m))
  end.

(** ** Snapshots *)

(** Every snapshot object carries a [createdAt] date; the generic helpers
    [_getSample] and [_pruneSnapshots] only read that field. *)
Class HasCreatedAt (A : Type) := createdAt : A -> Z.

Record CpuSnapshot := {
  cpu_createdAt : Z;
  cpu_isOverloaded : bool;
}.

Record EventLoopSnapshot := {
  el_createdAt : Z;
  el_isOverloaded : bool;
  exceededMillis : Q;
}.

(** The object returned by [getMemoryInfo()]; the fields the class reads. *)
Record MemInfo := {
  totalBytes : Z;
  mainProcessBytes : Z;
  childProcessesBytes : Z;
}.

(** [Object.assign(memInfo, { createdAt, isOverloaded })]. *)
Record MemorySnapshot := {
  memInfo : MemInfo;
  mem_createdAt : Z;
  mem_isOverloaded : bool;
}.

#[global] Instance cpu_HasCreatedAt : HasCreatedAt CpuSnapshot := cpu_createdAt.
#[global] Instance el_HasCreatedAt : HasCreatedAt EventLoopSnapshot := el_createdAt.
#[global] Instance mem_HasCreatedAt : HasCreatedAt MemorySnapshot := mem_createdAt.

(** ** The generic helpers *)

Section Helpers.
Context {A : Type} `{HasCreatedAt A}.

(** The [while (idx--)] loop of [_getSample]: walks down from [idx],
    [unshift]ing entries while they are within the duration, and stops at
    the first one that is not. *)
Fixpoint getSample_loop (snapshots : list A) (latestTime : Z)
    (sampleDurationMillis : Q) (idx : nat) (sample : list A) : list A :=
  match idx with
  | O => sample
  | S idx' =>
    match snapshots !! idx' with
    | Some snapshot =>
      if Qle_bool (inject_Z (latestTime - createdAt snapshot)) sampleDurationMillis
      then getSample_loop snapshots latestTime sampleDurationMillis idx' (snapshot :: sample)
      else sample
    | None => sample
    end
  end.

(** [_getSample(snapshots, sampleDurationMillis)]; [None] is an absent
    argument. *)
Definition _getSample (snapshots : list A) (sampleDurationMillis : option Q) : list A :=
  if falsy sampleDurationMillis then snapshots
  else
    match sampleDurationMillis with
    | None => snapshots
    | Some d =>
      let idx := length snapshots in
      match idx with
      | O => []
      | S i =>
        match snapshots !! i with
        | Some latest => getSample_loop snapshots (createdAt latest) d idx []
        | None => []
        end
      end
    end.

(** The [for] loop of [_pruneSnapshots]: counts the leading entries that
    are older than [snapshotHistoryMillis] and stops at the first that is
    not. *)
Fixpoint oldCount (snapshotHistoryMillis : Q) (snapshots : list A) (now : Z) : nat :=
  match snapshots with
  | [] => O
  | s :: rest =>
    if Qlt_bool snapshotHistoryMillis (inject_Z (now - createdAt s))
    then S (oldCount snapshotHistoryMillis rest now)
    else O
  end.

(** [_pruneSnapshots(snapshots, now)]: [snapshots.splice(0, oldCount)]. *)
Definition _pruneSnapshots (snapshotHistoryMillis : Q) (snapshots : list A) (now : Z) : list A :=
  drop (oldCount snapshotHistoryMillis snapshots now) snapshots.

End Helpers.

(** ** The Snapshotter object *)

(** The [options] argument of the constructor; [None] is an absent
    property. *)
Record Options := {
  opt_eventLoopSnapshotIntervalSecs : option Q;
  opt_memorySnapshotIntervalSecs : option Q;
  opt_snapshotHistorySecs : option Q;
  opt_maxBlockedRatio : option Q;
  opt_minFreeMemoryRatio : option Q;
  opt_maxMemoryMbytes : option Q;
}.

(** [DEFAULT_OPTIONS]. *)
Definition DEFAULT_eventLoopSnapshotIntervalSecs : Q := 5 # 10.
Definition DEFAULT_memorySnapshotIntervalSecs : Q := 1.
Definition DEFAULT_snapshotHistorySecs : Q := 60.
Definition DEFAULT_maxBlockedRatio : Q := 1 # 10.
Definition DEFAULT_minFreeMemoryRatio : Q := 7 # 10.

(** [_.defaults(options, DEFAULT_OPTIONS)], one property at a time. *)
Definition defaults (o : option Q) (d : Q) : Q := default d o.

Definition eventLoopSnapshotIntervalSecs (o : Options) : Q :=
  defaults (opt_eventLoopSnapshotIntervalSecs o) DEFAULT_eventLoopSnapshotIntervalSecs.
Definition memorySnapshotIntervalSecs (o : Options) : Q :=
  defaults (opt_memorySnapshotIntervalSecs o) DEFAULT_memorySnapshotIntervalSecs.
Definition snapshotHistorySecs (o : Options) : Q :=
  defaults (opt_snapshotHistorySecs o) DEFAULT_snapshotHistorySecs.
Definition maxBlockedRatio (o : Options) : Q :=
  defaults (opt_maxBlockedRatio o) DEFAULT_maxBlockedRatio.

(** The fields of [this]. *)
Record Snapshotter := {
  eventLoopSnapshotIntervalMillis : Q;
  memorySnapshotIntervalMillis : Q;
  snapshotHistoryMillis : Q;
  maxBlockedMillis : Q;
  minFreeMemoryRatio : Q;
  maxMemoryBytes : option Q;
  cpuSnapshots : list CpuSnapshot;
  eventLoopSnapshots : list EventLoopSnapshot;
  memorySnapshots : list MemorySnapshot;
}.

(** [new Snapshotter(options)].  Every [*] of lines 41-46 rounds its
    exact product; [a * b * c] is [(a * b) * c]. *)
Definition constructor `{Rounding} (options : Options) : Snapshotter := {|
  eventLoopSnapshotIntervalMillis := round (eventLoopSnapshotIntervalSecs options * 1000);
  memorySnapshotIntervalMillis := round (memorySnapshotIntervalSecs options * 1000);
  snapshotHistoryMillis := round (snapshotHistorySecs options * 1000);
  maxBlockedMillis :=
    round (round (1000 * eventLoopSnapshotIntervalSecs options) * maxBlockedRatio options);
  minFreeMemoryRatio := defaults (opt_minFreeMemoryRatio options) DEFAULT_minFreeMemoryRatio;
  maxMemoryBytes :=
    if falsy (opt_maxMemoryMbytes options) then None
    else (fun m => round (round (m * 1024) * 1024))%Q <$> opt_maxMemoryMbytes options;
  cpuSnapshots := [];
  eventLoopSnapshots := [];
  memorySnapshots := [];
|}%Q.

Definition set_maxMemoryBytes (v : Q) (s : Snapshotter) : Snapshotter := {|
  eventLoopSnapshotIntervalMillis := eventLoopSnapshotIntervalMillis s;
  memorySnapshotIntervalMillis := memorySnapshotIntervalMillis s;
  snapshotHistoryMillis := snapshotHistoryMillis s;
  maxBlockedMillis := maxBlockedMillis s;
  minFreeMemoryRatio := minFreeMemoryRatio s;
  maxMemoryBytes := Some v;
  cpuSnapshots := cpuSnapshots s;
  eventLoopSnapshots := eventLoopSnapshots s;
  memorySnapshots := memorySnapshots s;
|}.

Definition set_cpuSnapshots (l : list CpuSnapshot) (s : Snapshotter) : Snapshotter := {|
  eventLoopSnapshotIntervalMillis := eventLoopSnapshotIntervalMillis s;
  memorySnapshotIntervalMillis := memorySnapshotIntervalMillis s;
  snapshotHistoryMillis := snapshotHistoryMillis s;
  maxBlockedMillis := maxBlockedMillis s;
  minFreeMemoryRatio := minFreeMemoryRatio s;
  maxMemoryBytes := maxMemoryBytes s;
  cpuSnapshots := l;
  eventLoopSnapshots := eventLoopSnapshots s;
  memorySnapshots := memorySnapshots s;
|}.

Definition set_eventLoopSnapshots (l : list EventLoopSnapshot) (s : Snapshotter) : Snapshotter := {|
  eventLoopSnapshotIntervalMillis := eventLoopSnapshotIntervalMillis s;
  memorySnapshotIntervalMillis := memorySnapshotIntervalMillis s;
  snapshotHistoryMillis := snapshotHistoryMillis s;
  maxBlockedMillis := maxBlockedMillis s;
  minFreeMemoryRatio := minFreeMemoryRatio s;
  maxMemoryBytes := maxMemoryBytes s;
  cpuSnapshots := cpuSnapshots s;
  eventLoopSnapshots := l;
  memorySnapshots := memorySnapshots s;
|}.

Definition set_memorySnapshots (l : list MemorySnapshot) (s : Snapshotter) : Snapshotter := {|
  eventLoopSnapshotIntervalMillis := eventLoopSnapshotIntervalMillis s;
  memorySnapshotIntervalMillis := memorySnapshotIntervalMillis s;
  snapshotHistoryMillis := snapshotHistoryMillis s;
  maxBlockedMillis := maxBlockedMillis s;
  minFreeMemoryRatio := minFreeMemoryRatio s;
  maxMemoryBytes := maxMemoryBytes s;
  cpuSnapshots := cpuSnapshots s;
  eventLoopSnapshots := eventLoopSnapshots s;
  memorySnapshots := l;
|}.

(** ** Effects: mutable [this], a log, and exceptions *)

(** A thrown value. *)
Inductive Error :=
| TypeError (message : string)
| ProbeError (message : string).

(** What the methods act on: the object itself, the lines written by
    [log.exception], and how many times the timers' [intervalCallback]
    scheduled the next run. *)
Record World := {
  self : Snapshotter;
  logged : list (Error * string);
  scheduled : nat;
}.

Inductive Completion (A : Type) :=
| Normal (a : A)
| Throw (e : Error).
Arguments Normal {A} a.
Arguments Throw {A} e.

Definition M (A : Type) : Type := World -> Completion A * World.

Definition ret {A} (a : A) : M A := fun w => (Normal a, w).

Definition bind {A B} (m : M A) (k : A -> M B) : M B :=
  fun w =>
    match m w with
    | (Normal a, w') => k a w'
    | (Throw e, w') => (Throw e, w')
    end.

Definition throw {A} (e : Error) : M A := fun w => (Throw e, w).

Declare Scope js_scope.
Delimit Scope js_scope with js.
Notation "x <- m ;; k" := (bind m (fun x => k))
  (at level 100, m at next level, right associativity) : js_scope.
Notation "m ;;; k" := (bind m (fun _ => k))
  (at level 100, right associativity) : js_scope.

Definition this : M Snapshotter := fun w => (Normal (self w), w).

Definition update (f : Snapshotter -> Snapshotter) : M unit :=
  fun w => (Normal tt, {| self := f (self w); logged := logged w; scheduled := scheduled w |}).

(** [log.exception(err, message)]. *)
Definition log_exception (err : Error) (message : string) : M unit :=
  fun w => (Normal tt, {| self := self w; logged := (err, message) :: logged w; scheduled := scheduled w |}).

(** The callback that the interval helper hands to a tick: it schedules
    the next run of the tick. *)
Definition scheduleNext : M unit :=
  fun w => (Normal tt, {| self := self w; logged := logged w; scheduled := S (scheduled w) |}).

(** [try { body } catch (err) { handler(err) } finally { fin }]. *)
Definition try_catch_finally (body : M unit) (handler : Error -> M unit) (fin : M unit) : M unit :=
  fun w =>
    let after_catch :=
      match body w with
      | (Normal _, w1) => (Normal tt, w1)
      | (Throw e, w1) => handler e w1
      end in
    match fin (snd after_catch) with
    | (Normal _, w2) => (fst after_catch, w2)
    | (Throw e, w2) => (Throw e, w2)
    end.

(** [await getMemoryInfo()]: the probe either rejects or yields the
    measurements. *)
Definition getMemoryInfo (probe : Error + MemInfo) : M MemInfo :=
  match probe with
  | inl e => throw e
  | inr mi => ret mi
  end.

(** [const { createdAt } = snapshots[snapshots.length - 1]]: reading a
    property of [undefined] throws a [TypeError]. *)
Definition last_createdAt {A} `{HasCreatedAt A} (snapshots : list A) : M Z :=
  match last snapshots with
  | Some s => ret (createdAt s)
  | None => throw (TypeError "Cannot destructure property 'createdAt' of undefined")
  end.

(** ** The methods *)

Local Open Scope js_scope.

(** [stop()] clears the timers and the subscription. *)
Definition stop : M unit := ret tt.

Definition getMemorySample (sampleDurationMillis : option Q) : M (list MemorySnapshot) :=
  s <- this ;; ret (_getSample (memorySnapshots s) sampleDurationMillis).

Definition getEventLoopSample (sampleDurationMillis : option Q) : M (list EventLoopSnapshot) :=
  s <- this ;; ret (_getSample (eventLoopSnapshots s) sampleDurationMillis).

Definition getCpuSample (sampleDurationMillis : option Q) : M (list CpuSnapshot) :=
  s <- this ;; ret (_getSample (cpuSnapshots s) sampleDurationMillis).

(** Lines 116-120: the snapshot object a memory tick builds from the
    measurements. *)
Definition memorySnapshot_of `{Rounding} (s : Snapshotter) (now : Z) (mi : MemInfo)
  : MemorySnapshot :=
  let usedBytes := mainProcessBytes mi + childProcessesBytes mi in
  {| memInfo := mi;
     mem_createdAt := now;
     mem_isOverloaded := div_gt (inject_Z usedBytes) (maxMemoryBytes s) (minFreeMemoryRatio s) |}.

(** [_snapshotMemory(intervalCallback)]. *)
Definition _snapshotMemory `{Rounding} (now : Z) (probe : Error + MemInfo)
    (intervalCallback : M unit) : M unit :=
  try_catch_finally
    (mi <- getMemoryInfo probe ;;
     update (fun s => set_memorySnapshots
       (_pruneSnapshots (snapshotHistoryMillis s) (memorySnapshots s) now) s) ;;;
     s <- this ;;
     let snapshot := memorySnapshot_of s now mi in
     update (fun s => set_memorySnapshots (memorySnapshots s ++ [snapshot]) s))
    (fun err => log_exception err "Snapshotter: Memory snapshot failed.")
    intervalCallback.

(** Lines 135-143: the snapshot object an event-loop tick builds from the
    date of the last retained entry.  [now - createdAt] is a whole number
    of milliseconds; the two differences with numbers that need not be
    whole are rounded. *)
Definition eventLoopSnapshot_of `{Rounding} (s : Snapshotter) (now createdAt : Z)
  : EventLoopSnapshot :=
  let delta := round (inject_Z (now - createdAt) - eventLoopSnapshotIntervalMillis s)%Q in
  let snapshot := {|
    el_createdAt := now;
    el_isOverloaded := false;
    exceededMillis := Math_max (round (delta - maxBlockedMillis s)) 0;
  |} in
  if Qlt_bool (maxBlockedMillis s) delta
  then {| el_createdAt := el_createdAt snapshot;
          el_isOverloaded := true;
          exceededMillis := exceededMillis snapshot |}
  else snapshot.

(** [_snapshotEventLoop(intervalCallback)]. *)
Definition _snapshotEventLoop `{Rounding} (now : Z) (intervalCallback : M unit) : M unit :=
  try_catch_finally
    (update (fun s => set_eventLoopSnapshots
       (_pruneSnapshots (snapshotHistoryMillis s) (eventLoopSnapshots s) now) s) ;;;
     s <- this ;;
     createdAt <- last_createdAt (eventLoopSnapshots s) ;;
     let snapshot := eventLoopSnapshot_of s now createdAt in
     update (fun s => set_eventLoopSnapshots (eventLoopSnapshots s ++ [snapshot]) s))
    (fun err => log_exception err "Snapshotter: Event Loop snapshot failed.")
    intervalCallback.

(** The CPU_INFO event. *)
Record CpuInfoEvent := {
  ev_createdAt : Z;
  isCpuOverloaded : bool;
}.

(** [_snapshotCpu(cpuInfoEvent)]. *)
Definition _snapshotCpu (cpuInfoEvent : CpuInfoEvent) : M unit :=
  let createdAt := ev_createdAt cpuInfoEvent in
  update (fun s => set_cpuSnapshots
    (_pruneSnapshots (snapshotHistoryMillis s) (cpuSnapshots s) createdAt) s) ;;;
  update (fun s => set_cpuSnapshots
    (cpuSnapshots s ++
       [{| cpu_createdAt := createdAt; cpu_isOverloaded := isCpuOverloaded cpuInfoEvent |}]) s).

(** Lines 61-65: the dummy snapshot that [start()] pushes for the first
    tick to compare with. *)
Definition baseline (now : Z) : EventLoopSnapshot :=
  {| el_createdAt := now; el_isOverloaded := false; exceededMillis := 0 |}.

(** Line 69: [betterSetInterval] begins the first memory tick at once.
    The tick waits for its own [getMemoryInfo()]; [Some (now, probe)] when
    it has come to its end by the time [start()] is settled, with the date
    it read and the outcome of its probe, and [None] when it ends later, as
    a tick of its own. *)
Definition firstMemoryTick_run `{Rounding}
    (firstMemoryTick : option (Z * (Error + MemInfo))) : M unit :=
  match firstMemoryTick with
  | Some (now, probe) => _snapshotMemory now probe scheduleNext
  | None => ret tt
  end.

(** [start()]; [now] is the value of [new Date()], [probe] the outcome of
    [getMemoryInfo()] and [atHome] that of [isAtHome()].
    [betterSetInterval(func, delay)] calls [func] once before it returns,
    with the callback that arms the timer for the next call: the first
    event-loop tick runs inside [start()], at the date
    [firstEventLoopTick], and the first memory tick is begun there.  The
    later runs of the two timers and the CPU events are the ticks of the
    interface below.  [totalBytes / 4], a quarter of a whole number of
    bytes, is a double as it is. *)
Definition start `{Rounding} (now : Z) (probe : Error + MemInfo) (atHome : bool)
    (firstEventLoopTick : Z) (firstMemoryTick : option (Z * (Error + MemInfo))) : M unit :=
  s <- this ;;
  (if falsy (maxMemoryBytes s) then
     mi <- getMemoryInfo probe ;;
     if atHome then update (set_maxMemoryBytes (inject_Z (totalBytes mi)))
     else update (set_maxMemoryBytes (inject_Z (Qceiling (inject_Z (totalBytes mi) / 4))))
   else ret tt) ;;;
  update (fun s => set_eventLoopSnapshots (eventLoopSnapshots s ++ [baseline now]) s) ;;;
  _snapshotEventLoop firstEventLoopTick scheduleNext ;;;
  firstMemoryTick_run firstMemoryTick.

(** ** The interface as a whole *)

(** One call on the object: by its user ([start], [stop], the three
    accessors), by one of its timers, or by the CPU event. *)
Inductive Op :=
| OpStart (now : Z) (probe : Error + MemInfo) (atHome : bool)
    (firstEventLoopTick : Z) (firstMemoryTick : option (Z * (Error + MemInfo)))
| OpStop
| OpGetMemorySample (sampleDurationMillis : option Q)
| OpGetEventLoopSample (sampleDurationMillis : option Q)
| OpGetCpuSample (sampleDurationMillis : option Q)
| OpSnapshotMemory (now : Z) (probe : Error + MemInfo)
| OpSnapshotEventLoop (now : Z)
| OpSnapshotCpu (cpuInfoEvent : CpuInfoEvent).

Definition is_accessor (op : Op) : bool :=
  match op with
  | OpGetMemorySample _ | OpGetEventLoopSample _ | OpGetCpuSample _ => true
  | _ => false
  end.

Definition is_tick (op : Op) : bool :=
  match op with
  | OpSnapshotMemory _ _ | OpSnapshotEventLoop _ | OpSnapshotCpu _ => true
  | _ => false
  end.

Definition is_start (op : Op) : bool :=
  match op with
  | OpStart _ _ _ _ _ => true
  | _ => false
  end.

(** The world after a call, whatever it returned or threw. *)
Definition exec `{Rounding} (op : Op) (w : World) : World :=
  match op with
  | OpStart now probe atHome firstEventLoopTick firstMemoryTick =>
    snd (start now probe atHome firstEventLoopTick firstMemoryTick w)
  | OpStop => snd (stop w)
  | OpGetMemorySample d => snd (getMemorySample d w)
  | OpGetEventLoopSample d => snd (getEventLoopSample d w)
  | OpGetCpuSample d => snd (getCpuSample d w)
  | OpSnapshotMemory now probe => snd (_snapshotMemory now probe scheduleNext w)
  | OpSnapshotEventLoop now => snd (_snapshotEventLoop now scheduleNext w)
  | OpSnapshotCpu ev => snd (_snapshotCpu ev w)
  end.

(** Calls in sequence, first call first. *)
Definition execs `{Rounding} (ops : list Op) (w : World) : World :=
  foldl (fun w op => exec op w) w ops.

(** The world right after [new Snapshotter(options)]. *)
Definition init `{Rounding} (options : Options) : World :=
  {| self := constructor options; logged := []; scheduled := O |}.

Local Close Scope js_scope.

(** ** Vocabulary of the properties *)

(** A relation between every entry's date and the next one's. *)
Fixpoint adjacent (R : Z -> Z -> Prop) (ts : list Z) : Prop :=
  match ts with
  | t1 :: rest =>
    match rest with
    | t2 :: _ => R t1 t2 /\ adjacent R rest
    | [] => True
    end
  | [] => True
  end.

(** [createdAt] values never decrease along the history. *)
Definition nondecreasing (ts : list Z) : Prop := adjacent Z.le ts.

(** Consecutive [createdAt] values are at least [interval] apart. *)
Definition spaced (interval : Q) (ts : list Z) : Prop :=
  adjacent (fun t1 t2 => (interval <= inject_Z (t2 - t1))%Q) ts.

(** The dates of a history. *)
Definition times {A} `{HasCreatedAt A} (snapshots : list A) : list Z :=
  createdAt <$> snapshots.

(** An entry's [createdAt] lies within [d] milliseconds of [latestTime]. *)
Definition withinb {A} `{HasCreatedAt A} (latestTime : Z) (d : Q) (s : A) : bool :=
  Qle_bool (inject_Z (latestTime - createdAt s)) d.

(** The entries of a history whose [createdAt] lies within [d]
    milliseconds of the most recent entry's [createdAt], in order. *)
Definition entries_within {A} `{HasCreatedAt A} (snapshots : list A) (d : Q) : list A :=
  match last snapshots with
  | Some latest => List.filter (withinb (createdAt latest) d) snapshots
  | None => []
  end.

(** The three signals and the history each tick writes. *)
Inductive Signal := Memory | EventLoop | Cpu.

Definition signal_of (op : Op) : option Signal :=
  match op with
  | OpSnapshotMemory _ _ => Some Memory
  | OpSnapshotEventLoop _ => Some EventLoop
  | OpSnapshotCpu _ => Some Cpu
  | _ => None
  end.

Definition history_times (sig : Signal) (s : Snapshotter) : list Z :=
  match sig with
  | Memory => times (memorySnapshots s)
  | EventLoop => times (eventLoopSnapshots s)
  | Cpu => times (cpuSnapshots s)
  end.

(** The three histories together. *)
Definition histories (s : Snapshotter)
  : list CpuSnapshot * list EventLoopSnapshot * list MemorySnapshot :=
  (cpuSnapshots s, eventLoopSnapshots s, memorySnapshots s).

(** The ticks that run inside [start()], as calls of their own. *)
Definition first_ticks (firstEventLoopTick : Z)
    (firstMemoryTick : option (Z * (Error + MemInfo))) : list Op :=
  OpSnapshotEventLoop firstEventLoopTick ::
  match firstMemoryTick with
  | Some (now, probe) => [OpSnapshotMemory now probe]
  | None => []
  end.

(** The world in which those first ticks run: the object is [s] (the
    Snapshotter, with its memory ceiling settled) with the baseline entry
    pushed. *)
Definition with_baseline (now : Z) (s : Snapshotter) (w : World) : World :=
  {| self := set_eventLoopSnapshots (eventLoopSnapshots s ++ [baseline now]) s;
     logged := logged w;
     scheduled := scheduled w |}.

(** The memory ceiling that [start()] measures (lines 57-58). *)
Definition measured_ceiling (atHome : bool) (mi : MemInfo) : Q :=
  if atHome then inject_Z (totalBytes mi)
  else inject_Z (Qceiling (inject_Z (totalBytes mi) / 4)).

(** An event-loop snapshot is flagged exactly when it records a positive
    excess. *)
Definition flag_matches_excess (s : EventLoopSnapshot) : Prop :=
  el_isOverloaded s = Qlt_bool 0 (exceededMillis s).

(** ** Concrete configurations used in the examples *)

(** The rounding of the examples, which changes nothing: their products,
    quotients and differences ([0.5 * 1000], [1000 * 0.5 * 0.1],
    [1 * 1024 * 1024], [600 - 0 - 500], ...) are taken exactly. *)
#[global] Instance exact_rounding : Rounding := {|
  round := fun q => q;
  round_compat := fun x y Hxy => Hxy;
  round_idempotent := fun x => Qeq_refl x;
  round_monotone := fun x y Hxy => Hxy;
  round_sign := fun x y _ _ => iff_sym (Qlt_minus_iff y x);
|}.

(** No option given: every default applies. *)
Definition default_options : Options := {|
  opt_eventLoopSnapshotIntervalSecs := None;
  opt_memorySnapshotIntervalSecs := None;
  opt_snapshotHistorySecs := None;
  opt_maxBlockedRatio := None;
  opt_minFreeMemoryRatio := None;
  opt_maxMemoryMbytes := None;
|}.

(** The scenario of the specification: a memory tick every 100 ms,
    [minFreeMemoryRatio = 0.3], and one megabyte of memory. *)
Definition scenario_options : Options := {|
  opt_eventLoopSnapshotIntervalSecs := None;
  opt_memorySnapshotIntervalSecs := Some (1 # 10)%Q;
  opt_snapshotHistorySecs := None;
  opt_maxBlockedRatio := None;
  opt_minFreeMemoryRatio := Some (3 # 10)%Q;
  opt_maxMemoryMbytes := Some 1%Q;
|}.

(** A measurement with [usedBytes] bytes in the main process and none in
    child processes, on a machine with one megabyte. *)
Definition measured (usedBytes : Z) : MemInfo := {|
  totalBytes := 1048576;
  mainProcessBytes := usedBytes;
  childProcessesBytes := 0;
|}.

(** ** SystemStatus and AutoscaledPool *)

Module AutoscaledPool.

(** Modelled from the spec: the SystemStatus query layer (no source
    file of it is available).  Section 4.2: a signal is overloaded when
    the fraction of overloaded snapshots in its sample exceeds
    [maxOverloadedRatio]; an empty sample is not overloaded. *)
Definition isSignalOverloaded (maxOverloadedRatio : Q) (flags : list bool) : bool :=
  match flags with
  | [] => false
  | _ =>
    Qlt_bool maxOverloadedRatio
      (inject_Z (Z.of_nat (length (List.filter id flags)))
         / inject_Z (Z.of_nat (length flags)))
  end.

(** Modelled from the spec: [SystemStatus.isSystemIdle(windowMillis)]
    (no source file of it is available).  Section 4.2: the system is
    idle iff no signal type is overloaded over the window. *)
Definition isSystemIdle (maxOverloadedRatio : Q) (s : Snapshotter) (windowMillis : Q) : bool :=
  negb (isSignalOverloaded maxOverloadedRatio
          (mem_isOverloaded <$> _getSample (memorySnapshots s) (Some windowMillis)))
  && negb (isSignalOverloaded maxOverloadedRatio
          (el_isOverloaded <$> _getSample (eventLoopSnapshots s) (Some windowMillis)))
  && negb (isSignalOverloaded maxOverloadedRatio
          (cpu_isOverloaded <$> _getSample (cpuSnapshots s) (Some windowMillis))).

(** Modelled from the spec: the options of the AutoscaledPool (no source
    file of it is available).  Section 6, and the step sizes that
    section 9 leaves to configuration. *)
Record Config := {
  minConcurrency : Z;
  maxConcurrency : Z;
  maxOverloadedRatio : Q;
  shortWindowMillis : Q;
  historicalWindowMillis : Q;
  scaleUpStep : Z;
  scaleDownStepRatio : Q;
  scaleUpSuppressionTicks : nat;
}.

(** Modelled from the spec: the AutoscaledPool state of section 3 (no
    source file of it is available), with the suppression counter of
    section 4.3. *)
Record Pool := {
  desiredConcurrency : Z;
  currentlyRunningCount : Z;
  ticksSinceLastScaleUp : nat;
  isPaused : bool;
  isStopped : bool;
}.

(** Modelled from the spec: pool construction (no source file of it is
    available).  Section 3: the starting concurrency equals
    [minConcurrency]. *)
Definition create (c : Config) : Pool := {|
  desiredConcurrency := minConcurrency c;
  currentlyRunningCount := 0;
  ticksSinceLastScaleUp := O;
  isPaused := false;
  isStopped := false;
|}.

Definition set_concurrency (d : Z) (ticks : nat) (p : Pool) : Pool := {|
  desiredConcurrency := d;
  currentlyRunningCount := currentlyRunningCount p;
  ticksSinceLastScaleUp := ticks;
  isPaused := isPaused p;
  isStopped := isStopped p;
|}.

Definition set_running (n : Z) (p : Pool) : Pool := {|
  desiredConcurrency := desiredConcurrency p;
  currentlyRunningCount := n;
  ticksSinceLastScaleUp := ticksSinceLastScaleUp p;
  isPaused := isPaused p;
  isStopped := isStopped p;
|}.

Definition set_flags (paused stopped : bool) (p : Pool) : Pool := {|
  desiredConcurrency := desiredConcurrency p;
  currentlyRunningCount := currentlyRunningCount p;
  ticksSinceLastScaleUp := ticksSinceLastScaleUp p;
  isPaused := paused;
  isStopped := stopped;
|}.

(** Modelled from the spec: the scale-down step (no source file of it is
    available).  Section 4.3, step 1: a step proportional to the current
    concurrency. *)
Definition scaleDownStep (c : Config) (p : Pool) : Z :=
  Qceiling (scaleDownStepRatio c * inject_Z (desiredConcurrency p)).

(** Modelled from the spec: one evaluation of the autoscaling algorithm
    (no source file of it is available).  Section 4.3, steps 1 and 2:
    not idle over the short window, decrease with a floor at
    [minConcurrency] and reset the counter; idle over both windows, the
    counter elapsed and demand present, increase with a ceiling at
    [maxConcurrency]. *)
Definition autoscale (c : Config) (s : Snapshotter) (demand : bool) (p : Pool) : Pool :=
  if negb (isSystemIdle (maxOverloadedRatio c) s (shortWindowMillis c)) then
    set_concurrency (Z.max (minConcurrency c) (desiredConcurrency p - scaleDownStep c p)) O p
  else if isSystemIdle (maxOverloadedRatio c) s (historicalWindowMillis c)
          && (scaleUpSuppressionTicks c <=? ticksSinceLastScaleUp p)%nat
          && demand then
    set_concurrency (Z.min (maxConcurrency c) (desiredConcurrency p + scaleUpStep c)) O p
  else
    set_concurrency (desiredConcurrency p) (S (ticksSinceLastScaleUp p)) p.

(** Modelled from the spec: what can happen to a pool after its
    construction (no source file of it is available).  Sections 4.3 and 5:
    an autoscaling tick (with the histories the Snapshotter holds at that
    moment and whether there is demand), a pass of the task loop (with the
    answer of [isTaskReadyFunction]), the completion of a task, and the
    caller's pause, resume and abort. *)
Inductive Event :=
| Autoscale (s : Snapshotter) (demand : bool)
| Launch (taskReady : bool)
| Complete
| Pause
| Resume
| Abort.

(** Modelled from the spec: the pool's reaction to one event (no source
    file of it is available).  Section 4.3: the autoscaling loop runs
    while Running; a task is launched while
    [currentlyRunningCount < desiredConcurrency] and a task is ready;
    a completion decrements [currentlyRunningCount]. *)
Definition step (c : Config) (p : Pool) (e : Event) : Pool :=
  match e with
  | Autoscale s demand =>
    if isStopped p || isPaused p then p else autoscale c s demand p
  | Launch taskReady =>
    if negb (isStopped p) && negb (isPaused p) && taskReady
       && (currentlyRunningCount p <? desiredConcurrency p)
    then set_running (currentlyRunningCount p + 1) p
    else p
  | Complete => set_running (currentlyRunningCount p - 1) p
  | Pause => set_flags true (isStopped p) p
  | Resume => set_flags false (isStopped p) p
  | Abort => set_flags (isPaused p) true p
  end.

(** Modelled from the spec: a pool after any interleaving of events,
    first event first (no source file of it is available). *)
Definition run (c : Config) (events : list Event) : Pool :=
  foldl (step c) (create c) events.

(** Modelled from the spec: the options the table of section 6 describes
    (no source file of it is available): the bounds form an interval of
    non-negative concurrencies and the steps move in the direction their
    names say. *)
Definition valid (c : Config) : Prop :=
  0 <= minConcurrency c /\ minConcurrency c <= maxConcurrency c
  /\ 0 <= scaleUpStep c /\ (0 <= scaleDownStepRatio c)%Q.

(** Modelled from the spec: the invariant of section 3,
    [minConcurrency <= desiredConcurrency <= maxConcurrency]. *)
Definition within_bounds (c : Config) (p : Pool) : Prop :=
  minConcurrency c <= desiredConcurrency p <= maxConcurrency c.

(** The pool of the specification's scenario: between 1 and 10 tasks,
    one more task per scale-up, a twentieth fewer per scale-down. *)
Definition scenario_config : Config := {|
  minConcurrency := 1;
  maxConcurrency := 10;
  maxOverloadedRatio := (1 # 10)%Q;
  shortWindowMillis := 500%Q;
  historicalWindowMillis := 5000%Q;
  scaleUpStep := 1;
  scaleDownStepRatio := (1 # 20)%Q;
  scaleUpSuppressionTicks := 1;
|}.

(** Histories with one memory snapshot at 95% of the memory in use (an
    overloaded system) and at next to nothing in use (an idle one). *)
Definition overloaded_snapshotter : Snapshotter :=
  self (execs [OpStart 0 (inr (measured 0)) false 0 None;
               OpSnapshotMemory 0 (inr (measured 996147))]
          (init scenario_options)).

Definition idle_snapshotter : Snapshotter :=
  self (execs [OpStart 0 (inr (measured 0)) false 0 None;
               OpSnapshotMemory 0 (inr (measured 100))]
          (init scenario_options)).

End AutoscaledPool.

(** ** Further vocabulary for the Snapshotter *)

(** The date a sampling tick stamps on the snapshot it builds. *)
Definition tick_time (op : Op) : option Z :=
  match op with
  | OpSnapshotMemory now _ => Some now
  | OpSnapshotEventLoop now => Some now
  | OpSnapshotCpu ev => Some (ev_createdAt ev)
  | _ => None
  end.

(** An entry is older than the retention window at [now]: the test of
    the loop of [_pruneSnapshots]. *)
Definition is_old {A} `{HasCreatedAt A} (H_ms : Q) (now : Z) (s : A) : Prop :=
  (H_ms < inject_Z (now - createdAt s))%Q.

(** ** Session *)

(** The [Session] class of [src/unnamed/part_004]: its scores, counters
    and dates, and the methods that read and write them.  The cookie jar,
    the stored cookies and the user data are handed to the cookie library
    and never read by these methods; they are left out of the record. *)
Module Session.

(** The integral part of a number [x], towards zero. *)
Definition Date_of (x : Q) : Z := Z.quot (Qnum x) (Z.pos (Qden x)).

(** [new Date(x)] for a number [x]: the date whose time value is the
    integral part of [x], and Invalid Date, [None], when [x] is more than
    8.64e15 milliseconds away from the epoch. *)
Definition new_Date (x : Q) : option Z :=
  if Qle_bool (Qabs x) 8640000000000000 then Some (Date_of x) else None.

(** [Date.now() + (maxAgeSecs * 1000)]: the product and the sum are
    rounded. *)
Definition expiry `{Rounding} (dateNow : Z) (maxAgeSecs : Q) : Q :=
  round (inject_Z dateNow + round (maxAgeSecs * 1000))%Q.

(** The [options] argument of the constructor; [None] is an absent
    property.  [sessionPool] is the name of the constructor of the object
    given as the pool.  A date given as [createdAt] or [expiresAt] is a
    valid [Date], its time value.  The options [cookies], [cookieJar] and
    [userData] are taken to be absent, so that their defaults apply. *)
Record SessionOptions := {
  opt_id : option string;
  opt_maxAgeSecs : option Q;
  opt_maxErrorScore : option Q;
  opt_errorScoreDecrement : option Q;
  opt_createdAt : option Z;
  opt_usageCount : option Q;
  opt_errorScore : option Q;
  opt_maxUsageCount : option Q;
  opt_expiresAt : option Z;
  opt_sessionPool : option string;
}.

(** What the constructor throws: the error of [checkParamOrThrow] for the
    named parameter, or an [Error] with a message. *)
Inductive ConstructorError :=
| ParamError (name : string)
| Error (message : string).

(** The fields of [this]. *)
Record Session := {
  id : string;
  maxAgeSecs : Q;
  maxErrorScore : Q;
  errorScoreDecrement : Q;
  expiresAt : Z;
  createdAt : Z;
  usageCount : Q;
  errorScore : Q;
  maxUsageCount : Q;
}.

(** [new Session(options)]; [now] is the value of [new Date()],
    [dateNow] that of [Date.now()] and [randomId] that of
    [cryptoRandomObjectId(10)].  The type checks hold by typing, except the
    one on [expiresAt], which rejects the Invalid Date that the default can
    be, and the one on [sessionPool], which rejects an absent pool; they
    are made in this order. *)
Definition constructor `{Rounding} (options : SessionOptions) (now dateNow : Z)
    (randomId : string) : ConstructorError + Session :=
  let id := default ("session_" ++ randomId)%string (opt_id options) in
  let maxAgeSecs := default 3000%Q (opt_maxAgeSecs options) in
  let maxErrorScore := default 3%Q (opt_maxErrorScore options) in
  let errorScoreDecrement := default (1 # 2)%Q (opt_errorScoreDecrement options) in
  let createdAt := default now (opt_createdAt options) in
  let usageCount := default 0%Q (opt_usageCount options) in
  let errorScore := default 0%Q (opt_errorScore options) in
  let maxUsageCount := default 50%Q (opt_maxUsageCount options) in
  let expiresAt :=
    match opt_expiresAt options with
    | Some date => Some date
    | None => new_Date (expiry dateNow maxAgeSecs)
    end in
  match expiresAt with
  | None => inl (ParamError "options.expiresAt")
  | Some expiresAt =>
    match opt_sessionPool options with
    | None => inl (ParamError "options.sessionPool")
    | Some name =>
      if negb (String.eqb name "SessionPool")
      then inl (Error "Session: sessionPool must be instance of SessionPool")
      else inr {|
        id := id;
        maxAgeSecs := maxAgeSecs;
        maxErrorScore := maxErrorScore;
        errorScoreDecrement := errorScoreDecrement;
        expiresAt := expiresAt;
        createdAt := createdAt;
        usageCount := usageCount;
        errorScore := errorScore;
        maxUsageCount := maxUsageCount;
      |}
    end
  end.

(** [isBlocked()]. *)
Definition isBlocked (s : Session) : bool := Qle_bool (maxErrorScore s) (errorScore s).

(** [isExpired()]; [now] is the value of [new Date()]. *)
Definition isExpired (s : Session) (now : Z) : bool := expiresAt s <=? now.

(** [isMaxUsageCountReached()]. *)
Definition isMaxUsageCountReached (s : Session) : bool :=
  Qle_bool (maxUsageCount s) (usageCount s).

(** [isUsable()]. *)
Definition isUsable (s : Session) (now : Z) : bool :=
  negb (isBlocked s) && negb (isExpired s now) && negb (isMaxUsageCountReached s).

Definition set_counters (usage score : Q) (s : Session) : Session := {|
  id := id s;
  maxAgeSecs := maxAgeSecs s;
  maxErrorScore := maxErrorScore s;
  errorScoreDecrement := errorScoreDecrement s;
  expiresAt := expiresAt s;
  createdAt := createdAt s;
  usageCount := usage;
  errorScore := score;
  maxUsageCount := maxUsageCount s;
|}.

(** [markGood()].  The new [errorScore] is the exact difference,
    rounded; [usageCount], a count of uses, grows by exactly one. *)
Definition markGood `{Rounding} (s : Session) : Session :=
  let usage := (usageCount s + 1)%Q in
  if Qlt_bool 0 (errorScore s)
  then set_counters usage (round (errorScore s - errorScoreDecrement s)%Q) s
  else set_counters usage (errorScore s) s.

(** [markBad()]; the new [errorScore] is the exact sum, rounded. *)
Definition markBad `{Rounding} (s : Session) : Session :=
  set_counters (usageCount s + 1)%Q (round (errorScore s + 1)%Q) s.

(** What the session emits on its pool. *)
Inductive PoolEvent :=
| SESSION_RETIRED (session : Session).

(** The session together with the events its pool has received. *)
Record State := {
  session : Session;
  emitted : list PoolEvent;
}.

(** [retire()]: the new [errorScore] is the exact sum, rounded; the
    event carries the session as it is after the update. *)
Definition retire `{Rounding} (st : State) : State :=
  let s := set_counters (usageCount (session st) + 1)%Q
             (round (errorScore (session st) + maxErrorScore (session st))%Q) (session st) in
  {| session := s; emitted := emitted st ++ [SESSION_RETIRED s] |}.

(** [retireOnBlockedStatusCodes(statusCode, blockedStatusCodes)], with the
    constant [STATUS_CODES_BLOCKED] of the constants module as a
    parameter; returns whether the session was retired. *)
Definition retireOnBlockedStatusCodes `{Rounding} (STATUS_CODES_BLOCKED : list Z)
    (statusCode : Z) (blockedStatusCodes : list Z) (st : State) : bool * State :=
  let isBlocked :=
    existsb (Z.eqb statusCode) (STATUS_CODES_BLOCKED ++ blockedStatusCodes) in
  if isBlocked then (isBlocked, retire st) else (isBlocked, st).

(** One call on the session that may write it. *)
Inductive Call :=
| MarkGood
| MarkBad
| Retire
| RetireOnBlockedStatusCodes (statusCode : Z) (blockedStatusCodes : list Z).

Definition call `{Rounding} (STATUS_CODES_BLOCKED : list Z) (st : State) (c : Call)
  : State :=
  match c with
  | MarkGood => {| session := markGood (session st); emitted := emitted st |}
  | MarkBad => {| session := markBad (session st); emitted := emitted st |}
  | Retire => retire st
  | RetireOnBlockedStatusCodes statusCode blockedStatusCodes =>
    snd (retireOnBlockedStatusCodes STATUS_CODES_BLOCKED statusCode blockedStatusCodes st)
  end.

(** Calls in sequence, first call first. *)
Definition calls `{Rounding} (STATUS_CODES_BLOCKED : list Z) (st : State)
    (cs : list Call) : State :=
  foldl (call STATUS_CODES_BLOCKED) st cs.

(** Whether a call counts as a use of the session. *)
Definition uses (STATUS_CODES_BLOCKED : list Z) (c : Call) : bool :=
  match c with
  | RetireOnBlockedStatusCodes statusCode blockedStatusCodes =>
    existsb (Z.eqb statusCode) (STATUS_CODES_BLOCKED ++ blockedStatusCodes)
  | _ => true
  end.

(** The options with nothing but a pool. *)
Definition only_pool : SessionOptions := {|
  opt_id := None;
  opt_maxAgeSecs := None;
  opt_maxErrorScore := None;
  opt_errorScoreDecrement := None;
  opt_createdAt := None;
  opt_usageCount := None;
  opt_errorScore := None;
  opt_maxUsageCount := None;
  opt_expiresAt := None;
  opt_sessionPool := Some "SessionPool"%string;
|}.

(** A session with every default, created at date 0. *)
Definition fresh : Session := {|
  id := "session_abc";
  maxAgeSecs := 3000;
  maxErrorScore := 3;
  errorScoreDecrement := 1 # 2;
  expiresAt := 3000000;
  createdAt := 0;
  usageCount := 0;
  errorScore := 0;
  maxUsageCount := 50;
|}.

(** The fresh session before any event. *)
Definition fresh_state : State := {| session := fresh; emitted := [] |}.

(** Status codes that stand for the constant [STATUS_CODES_BLOCKED] in the
    examples. *)
Definition blocked_codes : list Z := [401; 403; 429].

End Session.

(** ** Configuration *)

(** The [Configuration] class of [src/src/configuration.js].  Plain
    objects used as maps ([process.env], [this.options], the static tables)
    are finite maps from their own property names; an array is the list of
    its elements.  A lookup [o[key]], [key in o] or an assignment
    [o[key] = v] on such a map is what the source does for a [key] that no
    object inherits: the names that objects inherit ([toString],
    [constructor], [__proto__], ...) are among those that arrays inherit,
    the list [Array_prototype] below, and the properties of [get] and [set]
    are stated for keys outside that list. *)
Module Configuration.

(** A configuration value. *)
Inductive Value :=
| VUndefined
| VNull
| VBool (b : bool)
| VNumber (q : Q)
| VString (s : string).

(** What a method call comes to: a returned value or a thrown
    [TypeError]. *)
Inductive Outcome :=
| Returned (v : Value)
| Thrown (message : string).

(** [ENV_MAP], in the order of the object literal. *)
Definition ENV_MAP : list (string * string) := [
  ("TOKEN", "token");
  ("LOCAL_STORAGE_DIR", "localStorageDir");
  ("LOCAL_STORAGE_ENABLE_WAL_MODE", "localStorageEnableWalMode");
  ("DEFAULT_DATASET_ID", "defaultDatasetId");
  ("DEFAULT_KEY_VALUE_STORE_ID", "defaultKeyValueStoreId");
  ("DEFAULT_REQUEST_QUEUE_ID", "defaultRequestQueueId");
  ("METAMORPH_AFTER_SLEEP_MILLIS", "metamorphAfterSleepMillis");
  ("PERSIST_STATE_INTERVAL_MILLIS", "persistStateIntervalMillis");
  ("APIFY_TEST_PERSIST_INTERVAL_MILLIS", "persistStateIntervalMillis");
  ("ACTOR_EVENTS_WS_URL", "actorEventsWsUrl");
  ("INPUT_KEY", "inputKey");
  ("ACTOR_ID", "actorId");
  ("API_BASE_URL", "apiBaseUrl");
  ("IS_AT_HOME", "isAtHome");
  ("ACTOR_RUN_ID", "actorRunId");
  ("ACTOR_TASK_ID", "actorTaskId");
  ("CONTAINER_PORT", "containerPort");
  ("CONTAINER_URL", "containerUrl");
  ("USER_ID", "userId");
  ("PROXY_HOSTNAME", "proxyHostname");
  ("PROXY_PASSWORD", "proxyPassword");
  ("PROXY_STATUS_URL", "proxyStatusUrl");
  ("PROXY_PORT", "proxyPort")
]%string.

(** [ENV_MAP_REVERSED]: the [reduce] over [Object.entries(ENV_MAP)] that
    assigns [obj[value] = key], later entries overwriting earlier ones. *)
Definition ENV_MAP_REVERSED : gmap string string :=
  foldl (fun obj entry => <[entry.2 := entry.1]> obj) ∅ ENV_MAP.

Definition BOOLEAN_VARS : list string := ["localStorageEnableWalMode"]%string.

Definition INTEGER_VARS : list string :=
  ["proxyPort"; "internalPort"; "memoryMbytes"; "containerPort"]%string.

Definition DEFAULTS : gmap string Value :=
  list_to_map [
    ("defaultKeyValueStoreId", VString "default");
    ("defaultDatasetId", VString "default");
    ("defaultRequestQueueId", VString "default");
    ("proxyPort", VNumber 8000);
    ("proxyHostname", VString "proxy.apify.com");
    ("proxyStatusUrl", VString "http://proxy.apify.com");
    ("containerPort", VNumber 4321);
    ("containerUrl", VString "http://localhost:4321");
    ("maxOpenedStorages", VNumber 1000);
    ("metamorphAfterSleepMillis", VNumber 300000);
    ("persistStateIntervalMillis", VNumber 60000)
  ]%string.

(** [key in array]: the own property names of an array are the decimal
    forms of its indices, and [length]; [Array_prototype] lists the names of
    the properties that every array inherits (those of [Array.prototype]
    and, through it, those of [Object.prototype]). *)
Definition in_array (Array_prototype : list string) (key : string) (array : list string)
  : bool :=
  bool_decide (key ∈ (pretty <$> seq 0 (length array)) ++ ["length"%string])
  || bool_decide (key ∈ Array_prototype).

(** [!!value]. *)
Definition truthy (value : Value) : bool :=
  match value with
  | VUndefined | VNull => false
  | VBool b => b
  | VNumber q => negb (Qeq_bool q 0)
  | VString s => negb (String.eqb s "")
  end.

(** [a ?? b]. *)
Definition nullish_or (a b : Value) : Value :=
  match a with
  | VUndefined | VNull => b
  | _ => a
  end.

(** [this]: the options object. *)
Record Configuration := {
  options : gmap string Value;
}.

Section Environment.

(** The table [ENV_VARS] of the shared constants and [process.env]. *)
Variable ENV_VARS : gmap string string.
Variable env : gmap string string.

(** The built-ins [+value] and [String.prototype.toLowerCase], and the
    names of the properties that arrays inherit. *)
Variable ToNumber : Value -> Value.
Variable toLowerCase : string -> string.
Variable Array_prototype : list string.

(** [_cast(key, value, env)]. *)
Definition _cast (key : string) (value : Value) (fromEnv : bool) : Outcome :=
  if in_array Array_prototype key INTEGER_VARS then Returned (ToNumber value)
  else if in_array Array_prototype key BOOLEAN_VARS then
    if fromEnv then
      match value with
      | VString s =>
        Returned (VBool (negb (existsb (String.eqb (toLowerCase s)) ["0"; "false"; ""]%string)))
      | _ => Thrown "value.toLowerCase is not a function"
      end
    else Returned (VBool (truthy value))
  else Returned value.

(** [process.env[envKey] ?? process.env[ENV_VARS[envKey]]] for the
    [envKey] of [key]; a property name that is [undefined] reads the
    property called [undefined]. *)
Definition envValue (key : string) : option string :=
  let envKey := default key (ENV_MAP_REVERSED !! key) in
  match env !! envKey with
  | Some v => Some v
  | None => env !! default "undefined"%string (ENV_VARS !! envKey)
  end.

(** [get(key, defaultValue)]; an absent [defaultValue] is
    [VUndefined]. *)
Definition get (c : Configuration) (key : string) (defaultValue : Value) : Outcome :=
  match envValue key with
  | Some v => _cast key (VString v) true
  | None =>
    match options c !! key with
    | Some v => Returned v
    | None =>
      Returned (nullish_or defaultValue (nullish_or (default VUndefined (DEFAULTS !! key))
                                           VUndefined))
    end
  end.

(** [set(key, value)]. *)
Definition set (c : Configuration) (key : string) (value : Value) : Configuration :=
  {| options := <[key := value]> (options c) |}.

(** What the constructor leaves: the object, and whether it logged its
    warning. *)
Record Constructed := {
  config : Configuration;
  warned : bool;
}.

(** [new Configuration(options)]; [dir] is the value of
    [join(process.cwd(), './apify_storage')].  [None] when a [get]
    throws. *)
Definition constructor (opts : gmap string Value) (dir : string) : option Constructed :=
  let c := {| options := opts |} in
  match get c "localStorageDir" VUndefined with
  | Thrown _ => None
  | Returned localStorageDir =>
    if truthy localStorageDir then Some {| config := c; warned := false |}
    else
      match get c "token" VUndefined with
      | Thrown _ => None
      | Returned token =>
        if truthy token then Some {| config := c; warned := false |}
        else Some {| config := set c "localStorageDir" (VString dir); warned := true |}
      end
  end.

End Environment.

(** A stand-in for the table [ENV_VARS] in the examples. *)
Definition example_ENV_VARS : gmap string string :=
  list_to_map [
    ("TOKEN", "APIFY_TOKEN");
    ("LOCAL_STORAGE_DIR", "APIFY_LOCAL_STORAGE_DIR");
    ("PROXY_PORT", "APIFY_PROXY_PORT");
    ("PERSIST_STATE_INTERVAL_MILLIS", "APIFY_PERSIST_STATE_INTERVAL_MILLIS")
  ]%string.

(** An environment that sets the proxy port. *)
Definition example_env : gmap string string :=
  list_to_map [("APIFY_PROXY_PORT", "1234")]%string.

(** Some of the property names that arrays inherit. *)
Definition example_Array_prototype : list string :=
  ["constructor"; "toString"; "map"; "filter"; "includes"; "hasOwnProperty"]%string.

(** The own property names of an array of four elements, and of one. *)
Definition INTEGER_VARS_keys : list string := ["0"; "1"; "2"; "3"; "length"]%string.
Definition BOOLEAN_VARS_keys : list string := ["0"; "length"]%string.

End Configuration.

(** * Properties *)

(** ** Numbers *)

Lemma Qlt_bool_iff (x y : Q) : Qlt_bool x y = true <-> (x < y)%Q.
Proof.
  unfold Qlt_bool. rewrite negb_true_iff. split.
  - intros Hb. apply Qnot_le_lt. intros Hle.
    apply Qle_bool_iff in Hle. congruence.
  - intros Hlt. destruct (Qle_bool y x) eqn:E; [|reflexivity].
    apply Qle_bool_iff in E. exfalso. apply (Qlt_not_le _ _ Hlt E).
Qed.

Lemma Qlt_bool_false_iff (x y : Q) : Qlt_bool x y = false <-> (y <= x)%Q.
Proof.
  unfold Qlt_bool. rewrite negb_false_iff. apply Qle_bool_iff.
Qed.

Lemma Qle_bool_false_iff (x y : Q) : Qle_bool x y = false <-> (y < x)%Q.
Proof.
  rewrite <- Qlt_bool_iff. unfold Qlt_bool. now rewrite negb_true_iff.
Qed.

Lemma Qlt_bool_compat (x x' y y' : Q) :
  (x == x')%Q -> (y == y')%Q -> Qlt_bool x y = Qlt_bool x' y'.
Proof.
  intros Hx Hy.
  destruct (Qlt_bool x y) eqn:E1, (Qlt_bool x' y') eqn:E2; try reflexivity.
  - apply Qlt_bool_iff in E1. apply Qlt_bool_false_iff in E2.
    rewrite Hx, Hy in E1. exfalso. apply (Qlt_not_le _ _ E1 E2).
  - apply Qlt_bool_iff in E2. apply Qlt_bool_false_iff in E1.
    rewrite Hx, Hy in E1. exfalso. apply (Qlt_not_le _ _ E2 E1).
Qed.


Lemma inject_Z_sub_le (now a b : Z) :
  a <= b -> (inject_Z (now - b) <= inject_Z (now - a))%Q.
Proof. intros Hab. rewrite <- Zle_Qle. lia. Qed.

(** ** Dates along a history *)

Lemma adjacent_tail (R : Z -> Z -> Prop) (t : Z) (ts : list Z) :
  adjacent R (t :: ts) -> adjacent R ts.
Proof. destruct ts as [|t2 ts]; simpl; [trivial | tauto]. Qed.

Lemma adjacent_app_l (R : Z -> Z -> Prop) (l1 l2 : list Z) :
  adjacent R (l1 ++ l2) -> adjacent R l1.
Proof.
  induction l1 as [|t l1 IH]; [simpl; trivial|].
  intros Hadj. destruct l1 as [|t2 l1]; [simpl; trivial|].
  simpl in Hadj. destruct Hadj as [Hhd Htl]. split; [exact Hhd|].
  apply IH. exact Htl.
Qed.

Lemma adjacent_app_r (R : Z -> Z -> Prop) (l1 l2 : list Z) :
  adjacent R (l1 ++ l2) -> adjacent R l2.
Proof.
  induction l1 as [|t l1 IH]; [trivial|].
  intros Hadj. apply IH. apply (adjacent_tail R t). exact Hadj.
Qed.

Lemma nondecreasing_head_le (t : Z) (ts : list Z) :
  nondecreasing (t :: ts) -> Forall (Z.le t) ts.
Proof.
  revert t. induction ts as [|t2 ts IH]; intros t Hnd; [constructor|].
  destruct Hnd as [Hle Htl]. constructor; [exact Hle|].
  eapply Forall_impl; [apply IH, Htl|]. simpl. intros; lia.
Qed.

Lemma nondecreasing_le_last (ts : list Z) (t : Z) :
  nondecreasing (ts ++ [t]) -> Forall (fun t' => t' <= t) ts.
Proof.
  induction ts as [|t1 ts IH]; intros Hnd; [constructor|].
  constructor.
  - apply nondecreasing_head_le in Hnd.
    rewrite Forall_app in Hnd. destruct Hnd as [_ Hl].
    now inversion Hl.
  - apply IH. apply (adjacent_tail _ t1). exact Hnd.
Qed.

(** ** [_pruneSnapshots] *)

Section PruneFacts.
Context {A : Type} `{HasCreatedAt A}.
Variable H_ms : Q.
Variable now : Z.

Lemma prune_nil : _pruneSnapshots H_ms (@nil A) now = [].
Proof. reflexivity. Qed.

Lemma prune_cons (s : A) (l : list A) :
  _pruneSnapshots H_ms (s :: l) now =
    if Qlt_bool H_ms (inject_Z (now - createdAt s))
    then _pruneSnapshots H_ms l now
    else s :: l.
Proof.
  unfold _pruneSnapshots. simpl.
  destruct (Qlt_bool H_ms (inject_Z (now - createdAt s))); reflexivity.
Qed.


(** On a history whose dates never decrease, everything that survives
    the pruning is within the retention window of [now]. *)
Lemma prune_fresh (l : list A) :
  nondecreasing (times l) ->
  Forall (fun s => (inject_Z (now - createdAt s) <= H_ms)%Q) (_pruneSnapshots H_ms l now).
Proof.
  induction l as [|s l IH]; intros Hnd; [constructor|].
  rewrite prune_cons.
  destruct (Qlt_bool H_ms (inject_Z (now - createdAt s))) eqn:E.
  - apply IH. apply (adjacent_tail _ (createdAt s) (times l)). exact Hnd.
  - apply Qlt_bool_false_iff in E.
    constructor; [exact E|].
    change (times (s :: l)) with (createdAt s :: times l) in Hnd.
    apply nondecreasing_head_le in Hnd.
    unfold times in Hnd. rewrite Forall_fmap in Hnd.
    eapply Forall_impl; [exact Hnd|].
    intros s' Hle. simpl in Hle.
    eapply Qle_trans; [apply inject_Z_sub_le, Hle | exact E].
Qed.

Lemma prune_all_old (l : list A) :
  Forall (fun s => (H_ms < inject_Z (now - createdAt s))%Q) l ->
  _pruneSnapshots H_ms l now = [].
Proof.
  induction 1 as [|s l Hs _ IH]; [reflexivity|].
  rewrite prune_cons. apply Qlt_bool_iff in Hs. now rewrite Hs.
Qed.


(** The most recent entry survives when it is itself within the
    window. *)
Lemma prune_keeps_last (l : list A) (e : A) :
  last l = Some e ->
  (inject_Z (now - createdAt e) <= H_ms)%Q ->
  last (_pruneSnapshots H_ms l now) = Some e.
Proof.
  intros Hl He. induction l as [|s l IH]; [discriminate|].
  rewrite prune_cons.
  destruct (Qlt_bool H_ms (inject_Z (now - createdAt s))) eqn:E; [|exact Hl].
  destruct l as [|s2 l].
  - simpl in Hl. inversion Hl; subst s.
    apply Qlt_bool_iff in E. exfalso. apply (Qlt_not_le _ _ E He).
  - apply IH. rewrite last_cons_cons in Hl. exact Hl.
Qed.

End PruneFacts.

(** ** [_getSample] *)

Section SampleFacts.
Context {A : Type} `{HasCreatedAt A}.

(** The loop returns the longest run of entries within the duration that
    ends where it started. *)
Lemma getSample_loop_spec (t : Z) (d : Q) (pre post : list A) :
  exists pre1 r,
    pre = pre1 ++ r
    /\ getSample_loop (pre ++ post) t d (length pre) post = r ++ post
    /\ Forall (fun s => withinb t d s = true) r
    /\ (forall x, last pre1 = Some x -> withinb t d x = false).
Proof.
  revert post. induction pre as [|x pre IH] using rev_ind; intros post.
  - exists [], []. repeat split; [constructor | discriminate].
  - rewrite length_app. simpl length. rewrite Nat.add_1_r.
    cbn [getSample_loop].
    rewrite <- (assoc_L (++)). simpl app.
    rewrite list_lookup_middle by reflexivity.
    fold (withinb t d x).
    destruct (withinb t d x) eqn:E.
    + destruct (IH (x :: post)) as (pre1 & r & -> & Hloop & Hall & Hstop).
      exists pre1, (r ++ [x]). repeat split.
      * now rewrite (assoc_L (++)).
      * rewrite Hloop. rewrite <- (assoc_L (++)). reflexivity.
      * apply Forall_app. split; [exact Hall|]. now constructor.
      * exact Hstop.
    + exists (pre ++ [x]), []. repeat split.
      * now rewrite app_nil_r.
      * constructor.
      * intros y Hy. rewrite last_snoc in Hy. now inversion Hy; subst.
Qed.

Lemma getSample_falsy (l : list A) (d : option Q) :
  falsy d = true -> _getSample l d = l.
Proof. intros Hd. unfold _getSample. now rewrite Hd. Qed.

Lemma getSample_nil (d : option Q) : _getSample (@nil A) d = [].
Proof. unfold _getSample. destruct (falsy d), d; reflexivity. Qed.

Lemma falsy_pos (d : Q) : (0 < d)%Q -> falsy (Some d) = false.
Proof.
  intros Hd. simpl. destruct (Qeq_bool d 0) eqn:E; [|reflexivity].
  apply Qeq_bool_iff in E. rewrite E in Hd. now apply Qlt_irrefl in Hd.
Qed.

(** For a duration that is not falsy, the result is the longest suffix
    of the history all of whose entries are within the duration of the
    last entry. *)
Lemma getSample_spec (l : list A) (d : Q) (latest : A) :
  falsy (Some d) = false ->
  last l = Some latest ->
  exists pre1,
    l = pre1 ++ _getSample l (Some d)
    /\ Forall (fun s => withinb (createdAt latest) d s = true) (_getSample l (Some d))
    /\ (forall x, last pre1 = Some x -> withinb (createdAt latest) d x = false).
Proof.
  intros Hd Hl. unfold _getSample. rewrite Hd.
  rewrite last_lookup in Hl.
  destruct (length l) as [|i] eqn:Elen.
  - destruct l; [discriminate Hl | discriminate Elen].
  - simpl in Hl. rewrite Hl.
    destruct (getSample_loop_spec (createdAt latest) d l [])
      as (pre1 & r & Hsplit & Hloop & Hall & Hstop).
    rewrite app_nil_r, Elen in Hloop. rewrite Hloop, app_nil_r.
    exists pre1. auto.
Qed.

Lemma filter_all (f : A -> bool) (l : list A) :
  Forall (fun s => f s = true) l -> List.filter f l = l.
Proof.
  induction 1 as [|s l Hs _ IH]; [reflexivity|].
  simpl. now rewrite Hs, IH.
Qed.

Lemma filter_none (f : A -> bool) (l : list A) :
  Forall (fun s => f s = false) l -> List.filter f l = [].
Proof.
  induction 1 as [|s l Hs _ IH]; [reflexivity|].
  simpl. now rewrite Hs, IH.
Qed.

(** On a history whose dates never decrease, that suffix is made of
    exactly the entries within the duration. *)
Lemma getSample_nondecreasing (l : list A) (d : Q) :
  falsy (Some d) = false ->
  nondecreasing (times l) ->
  _getSample l (Some d) = entries_within l d.
Proof.
  intros Hd Hnd. unfold entries_within.
  destruct (last l) as [latest|] eqn:Hl.
  - destruct (getSample_spec l d latest Hd Hl) as (pre1 & Hsplit & Hall & Hstop).
    rewrite Hsplit at 2. rewrite List.filter_app.
    rewrite (filter_all _ _ Hall).
    rewrite filter_none; [reflexivity|].
    destruct (last pre1) as [x|] eqn:Hx.
    + specialize (Hstop x eq_refl).
      apply last_Some in Hx. destruct Hx as [pre0 ->].
      rewrite Hsplit in Hnd. unfold times in Hnd.
      rewrite fmap_app in Hnd. apply adjacent_app_l in Hnd.
      rewrite fmap_app in Hnd. simpl in Hnd.
      apply Forall_app. split; [|now constructor].
      apply nondecreasing_le_last in Hnd.
      rewrite Forall_fmap in Hnd.
      eapply Forall_impl; [exact Hnd|].
      intros y Hy. simpl in Hy.
      unfold withinb in *. apply Qle_bool_false_iff.
      apply Qle_bool_false_iff in Hstop.
      eapply Qlt_le_trans; [exact Hstop|].
      apply inject_Z_sub_le. exact Hy.
    + apply last_None in Hx. subst pre1. constructor.
  - apply last_None in Hl. subst l. apply getSample_nil.
Qed.

End SampleFacts.

(** ** What each call does to the world *)

Lemma exec_memory_ok {R : Rounding} (w : World) (now : Z) (mi : MemInfo) :
  exec (OpSnapshotMemory now (inr mi)) w =
    {| self := set_memorySnapshots
         (_pruneSnapshots (snapshotHistoryMillis (self w)) (memorySnapshots (self w)) now
            ++ [memorySnapshot_of (self w) now mi]) (self w);
       logged := logged w;
       scheduled := S (scheduled w) |}.
Proof. reflexivity. Qed.

Lemma exec_memory_fail {R : Rounding} (w : World) (now : Z) (err : Error) :
  exec (OpSnapshotMemory now (inl err)) w =
    {| self := self w;
       logged := (err, "Snapshotter: Memory snapshot failed."%string) :: logged w;
       scheduled := S (scheduled w) |}.
Proof. reflexivity. Qed.

Lemma exec_eventLoop_ok {R : Rounding} (w : World) (now : Z) (e : EventLoopSnapshot) :
  last (_pruneSnapshots (snapshotHistoryMillis (self w)) (eventLoopSnapshots (self w)) now) = Some e ->
  exec (OpSnapshotEventLoop now) w =
    {| self := set_eventLoopSnapshots
         (_pruneSnapshots (snapshotHistoryMillis (self w)) (eventLoopSnapshots (self w)) now
            ++ [eventLoopSnapshot_of (self w) now (el_createdAt e)]) (self w);
       logged := logged w;
       scheduled := S (scheduled w) |}.
Proof.
  intros Hl. unfold exec, _snapshotEventLoop, try_catch_finally, bind, update, this,
    last_createdAt. simpl. rewrite Hl. reflexivity.
Qed.

Lemma exec_eventLoop_fail {R : Rounding} (w : World) (now : Z) :
  last (_pruneSnapshots (snapshotHistoryMillis (self w)) (eventLoopSnapshots (self w)) now) = None ->
  exec (OpSnapshotEventLoop now) w =
    {| self := set_eventLoopSnapshots
         (_pruneSnapshots (snapshotHistoryMillis (self w)) (eventLoopSnapshots (self w)) now)
         (self w);
       logged := (TypeError "Cannot destructure property 'createdAt' of undefined",
                  "Snapshotter: Event Loop snapshot failed."%string) :: logged w;
       scheduled := S (scheduled w) |}.
Proof.
  intros Hl. unfold exec, _snapshotEventLoop, try_catch_finally, bind, update, this,
    last_createdAt. simpl. rewrite Hl. reflexivity.
Qed.

Lemma exec_cpu {R : Rounding} (w : World) (ev : CpuInfoEvent) :
  exec (OpSnapshotCpu ev) w =
    {| self := set_cpuSnapshots
         (_pruneSnapshots (snapshotHistoryMillis (self w)) (cpuSnapshots (self w)) (ev_createdAt ev)
            ++ [{| cpu_createdAt := ev_createdAt ev; cpu_isOverloaded := isCpuOverloaded ev |}])
         (self w);
       logged := logged w;
       scheduled := scheduled w |}.
Proof. reflexivity. Qed.

Lemma exec_accessor {R : Rounding} (w : World) (op : Op) : is_accessor op = true -> exec op w = w.
Proof. destruct op; try discriminate; intros _; destruct w; reflexivity. Qed.

Lemma exec_stop {R : Rounding} (w : World) : exec OpStop w = w.
Proof. destruct w; reflexivity. Qed.

(** With the timer's own callback a tick completes normally. *)
Lemma eventLoop_tick_run {R : Rounding} (w : World) (now : Z) :
  _snapshotEventLoop now scheduleNext w = (Normal tt, exec (OpSnapshotEventLoop now) w).
Proof.
  unfold exec, _snapshotEventLoop, try_catch_finally, bind, update, this, last_createdAt.
  simpl. destruct (last _); reflexivity.
Qed.

Lemma memory_tick_run {R : Rounding} (w : World) (now : Z) (probe : Error + MemInfo) :
  _snapshotMemory now probe scheduleNext w = (Normal tt, exec (OpSnapshotMemory now probe) w).
Proof. destruct probe; reflexivity. Qed.

Lemma first_ticks_run {R : Rounding} (w : World) (t : Z) (fm : option (Z * (Error + MemInfo))) :
  (_snapshotEventLoop t scheduleNext ;;; firstMemoryTick_run fm)%js w
  = (Normal tt, execs (first_ticks t fm) w).
Proof.
  unfold bind. rewrite eventLoop_tick_run.
  destruct fm as [[now probe]|]; simpl; [apply memory_tick_run | reflexivity].
Qed.

(** [start()] with a memory ceiling already known: the baseline, then the
    first ticks. *)
Lemma start_run_known {R : Rounding} (w : World) (now : Z) (probe : Error + MemInfo) (atHome : bool)
    (t : Z) (fm : option (Z * (Error + MemInfo))) :
  falsy (maxMemoryBytes (self w)) = false ->
  start now probe atHome t fm w
  = (Normal tt, execs (first_ticks t fm) (with_baseline now (self w) w)).
Proof.
  intros Hf. unfold start. unfold bind at 1. unfold this. rewrite Hf.
  unfold bind at 1. unfold ret. unfold bind at 1. unfold update at 1.
  apply first_ticks_run.
Qed.

(** [start()] without one, when the probe answers: the measured ceiling,
    the baseline, then the first ticks. *)
Lemma start_run_measured {R : Rounding} (w : World) (now : Z) (mi : MemInfo) (atHome : bool)
    (t : Z) (fm : option (Z * (Error + MemInfo))) :
  falsy (maxMemoryBytes (self w)) = true ->
  start now (inr mi) atHome t fm w
  = (Normal tt,
     execs (first_ticks t fm)
       (with_baseline now (set_maxMemoryBytes (measured_ceiling atHome mi) (self w)) w)).
Proof.
  intros Hf. unfold start. unfold bind at 1. unfold this. rewrite Hf.
  unfold bind at 1. unfold bind at 1. unfold getMemoryInfo, ret.
  unfold measured_ceiling.
  destruct atHome; unfold update at 1; unfold bind at 1; unfold update at 1;
    apply first_ticks_run.
Qed.

(** [start()] without one, when the probe fails: nothing is done. *)
Lemma start_run_failed {R : Rounding} (w : World) (now : Z) (err : Error) (atHome : bool)
    (t : Z) (fm : option (Z * (Error + MemInfo))) :
  falsy (maxMemoryBytes (self w)) = true ->
  start now (inl err) atHome t fm w = (Throw err, w).
Proof.
  intros Hf. unfold start, bind, this. rewrite Hf. reflexivity.
Qed.

(** The three ways [start()] can go. *)
Lemma exec_start_cases {R : Rounding} (w : World) (now : Z) (probe : Error + MemInfo)
    (atHome : bool)
    (t : Z) (fm : option (Z * (Error + MemInfo))) :
  exec (OpStart now probe atHome t fm) w = w
  \/ exec (OpStart now probe atHome t fm) w
     = execs (first_ticks t fm) (with_baseline now (self w) w)
  \/ exists c,
       exec (OpStart now probe atHome t fm) w
       = execs (first_ticks t fm) (with_baseline now (set_maxMemoryBytes c (self w)) w).
Proof.
  unfold exec. destruct (falsy (maxMemoryBytes (self w))) eqn:Hf.
  - destruct probe as [err|mi].
    + left. now rewrite start_run_failed.
    + right. right. eexists. now rewrite start_run_measured.
  - right. left. now rewrite start_run_known.
Qed.

Lemma execs_snoc {R : Rounding} (ops : list Op) (op : Op) (w : World) :
  execs (ops ++ [op]) w = exec op (execs ops w).
Proof. unfold execs. now rewrite foldl_snoc. Qed.

Lemma execs_cons {R : Rounding} (op : Op) (ops : list Op) (w : World) :
  execs (op :: ops) w = execs ops (exec op w).
Proof. reflexivity. Qed.

Lemma first_ticks_not_start (t : Z) (fm : option (Z * (Error + MemInfo))) :
  Forall (fun op => is_start op = false) (first_ticks t fm).
Proof. destruct fm as [[now probe]|]; repeat constructor. Qed.

(** A property of the world that [start()] keeps, given that it survives
    the settling of the memory ceiling, the push of the baseline and the
    calls other than [start()]. *)
Lemma exec_start_keeps {R : Rounding} (P : World -> Prop) (w : World) (now : Z)
    (probe : Error + MemInfo)
    (atHome : bool) (t : Z) (fm : option (Z * (Error + MemInfo))) :
  (forall op w', is_start op = false -> P w' -> P (exec op w')) ->
  P w ->
  P (with_baseline now (self w) w) ->
  (forall c, P (with_baseline now (set_maxMemoryBytes c (self w)) w)) ->
  P (exec (OpStart now probe atHome t fm) w).
Proof.
  intros Hstep Hw Hknown Hmeasured.
  assert (Hticks : forall w', P w' -> P (execs (first_ticks t fm) w')).
  { intros w' Hw'. pose proof (first_ticks_not_start t fm) as Hns.
    revert w' Hw'. induction Hns as [|op ops Hop _ IH]; intros w' Hw'; [exact Hw'|].
    rewrite execs_cons. apply IH. now apply Hstep. }
  destruct (exec_start_cases w now probe atHome t fm) as [-> | [-> | [c ->]]].
  - exact Hw.
  - now apply Hticks.
  - now apply Hticks.
Qed.

(** The configuration computed by the constructor is never written
    again. *)
Lemma exec_config {R : Rounding} (op : Op) (w : World) :
  eventLoopSnapshotIntervalMillis (self (exec op w)) = eventLoopSnapshotIntervalMillis (self w)
  /\ snapshotHistoryMillis (self (exec op w)) = snapshotHistoryMillis (self w)
  /\ maxBlockedMillis (self (exec op w)) = maxBlockedMillis (self w)
  /\ minFreeMemoryRatio (self (exec op w)) = minFreeMemoryRatio (self w).
Proof.
  assert (Hother : forall op w', is_start op = false ->
    eventLoopSnapshotIntervalMillis (self (exec op w')) = eventLoopSnapshotIntervalMillis (self w')
    /\ snapshotHistoryMillis (self (exec op w')) = snapshotHistoryMillis (self w')
    /\ maxBlockedMillis (self (exec op w')) = maxBlockedMillis (self w')
    /\ minFreeMemoryRatio (self (exec op w')) = minFreeMemoryRatio (self w')).
  { clear. intros op w Hop.
    destruct op as [now probe atHome t fm| | | | |now probe|now|ev]; try discriminate Hop.
    - rewrite exec_stop. auto.
    - rewrite exec_accessor by reflexivity. auto.
    - rewrite exec_accessor by reflexivity. auto.
    - rewrite exec_accessor by reflexivity. auto.
    - destruct probe as [err|mi]; [rewrite exec_memory_fail | rewrite exec_memory_ok];
        simpl; auto.
    - destruct (last (_pruneSnapshots (snapshotHistoryMillis (self w))
                        (eventLoopSnapshots (self w)) now)) as [e|] eqn:Hl.
      + rewrite (exec_eventLoop_ok _ _ _ Hl). simpl. auto.
      + rewrite (exec_eventLoop_fail _ _ Hl). simpl. auto.
    - rewrite exec_cpu. simpl. auto. }
  destruct op as [now probe atHome t fm| | | | |now probe|now|ev];
    try (apply Hother; reflexivity).
  apply (exec_start_keeps (fun w' =>
    eventLoopSnapshotIntervalMillis (self w') = eventLoopSnapshotIntervalMillis (self w)
    /\ snapshotHistoryMillis (self w') = snapshotHistoryMillis (self w)
    /\ maxBlockedMillis (self w') = maxBlockedMillis (self w)
    /\ minFreeMemoryRatio (self w') = minFreeMemoryRatio (self w))).
  - intros op w' Hop (I1 & I2 & I3 & I4).
    destruct (Hother op w' Hop) as (E1 & E2 & E3 & E4).
    rewrite E1, E2, E3, E4. auto.
  - auto.
  - simpl. auto.
  - intros c. simpl. auto.
Qed.

Lemma execs_config {R : Rounding} (ops : list Op) (w : World) :
  eventLoopSnapshotIntervalMillis (self (execs ops w)) = eventLoopSnapshotIntervalMillis (self w)
  /\ snapshotHistoryMillis (self (execs ops w)) = snapshotHistoryMillis (self w)
  /\ maxBlockedMillis (self (execs ops w)) = maxBlockedMillis (self w)
  /\ minFreeMemoryRatio (self (execs ops w)) = minFreeMemoryRatio (self w).
Proof.
  induction ops as [|op ops IH] using rev_ind; [simpl; auto|].
  rewrite execs_snoc.
  destruct (exec_config op (execs ops w)) as (E1 & E2 & E3 & E4).
  destruct IH as (I1 & I2 & I3 & I4).
  rewrite E1, E2, E3, E4. auto.
Qed.

(** ** Memory overload *)

(** Against C1 as stated: with [minFreeMemoryRatio = 0.3] and half of the
    memory in use, the memory tick records an overloaded snapshot, although
    the used fraction [1/2] does not exceed [1 - 0.3]. *)
Lemma memory_overload_complement_counterexample :
  let w := execs [OpStart 0 (inr (measured 0)) false 0 None;
                  OpSnapshotMemory 0 (inr (measured 524288))]
             (init scenario_options) in
  exists s m,
    memorySnapshots (self w) = [s]
    /\ maxMemoryBytes (self w) = Some m
    /\ mem_isOverloaded s = true
    /\ ~ (1 - minFreeMemoryRatio (self w)
          < inject_Z (mainProcessBytes (memInfo s) + childProcessesBytes (memInfo s)) / m)%Q.
Proof.
  eexists _, _. repeat split; try reflexivity.
  intros Hlt. vm_compute in Hlt. discriminate Hlt.
Qed.

(** C1, as the code has it: a memory tick whose probe succeeds appends one
    snapshot, taken at [now], whose [isOverloaded] is true exactly when the
    used fraction [(mainProcessBytes + childProcessesBytes) / maxMemoryBytes]
    (the quotient as the code computes it, rounded to a double) exceeds
    [minFreeMemoryRatio] itself. *)
Theorem memory_overload_threshold {R : Rounding} (w : World) (now : Z) (mi : MemInfo) (m : Q) :
  maxMemoryBytes (self w) = Some m ->
  (0 < m)%Q ->
  exists s,
    memorySnapshots (self (exec (OpSnapshotMemory now (inr mi)) w)) =
      _pruneSnapshots (snapshotHistoryMillis (self w)) (memorySnapshots (self w)) now ++ [s]
    /\ mem_createdAt s = now
    /\ memInfo s = mi
    /\ (mem_isOverloaded s = true <->
        (minFreeMemoryRatio (self w)
         < round (inject_Z (mainProcessBytes mi + childProcessesBytes mi) / m))%Q).
Proof.
  intros Hm Hpos. exists (memorySnapshot_of (self w) now mi).
  rewrite exec_memory_ok. repeat split; try reflexivity.
  - simpl. unfold div_gt. rewrite Hm.
    destruct (Qeq_bool m 0) eqn:E.
    + apply Qeq_bool_iff in E. rewrite E in Hpos. now apply Qlt_irrefl in Hpos.
    + intros Hb. now apply Qlt_bool_iff.
  - simpl. unfold div_gt. rewrite Hm.
    destruct (Qeq_bool m 0) eqn:E.
    + apply Qeq_bool_iff in E. rewrite E in Hpos. now apply Qlt_irrefl in Hpos.
    + intros Hb. now apply Qlt_bool_iff.
Qed.

Lemma memory_overload_threshold_witness :
  exists s,
    memorySnapshots (self (exec (OpSnapshotMemory 100 (inr (measured 996147)))
                             (init scenario_options))) = [] ++ [s]
    /\ mem_createdAt s = 100
    /\ memInfo s = measured 996147
    /\ (mem_isOverloaded s = true <->
        ((3 # 10) < round (inject_Z (996147 + 0) / (1 * 1024 * 1024)))%Q).
Proof.
  apply (memory_overload_threshold (init scenario_options) 100 (measured 996147)
           (1 * 1024 * 1024)%Q).
  - reflexivity.
  - reflexivity.
Defined.

(** The scenario of the specification: three consecutive memory ticks, 100
    ms apart, each measuring 95% of the memory in use, with
    [minFreeMemoryRatio = 0.3]: all three snapshots are overloaded. *)
Example memory_scenario_three_samples :
  mem_isOverloaded <$>
    memorySnapshots (self (execs [OpStart 0 (inr (measured 996147)) false 0 None;
                                  OpSnapshotMemory 0 (inr (measured 996147));
                                  OpSnapshotMemory 100 (inr (measured 996147));
                                  OpSnapshotMemory 200 (inr (measured 996147))]
                             (init scenario_options)))
  = [true; true; true].
Proof. reflexivity. Qed.

(** ** Event-loop overload *)

Lemma eventLoopSnapshot_of_createdAt {R : Rounding} (s : Snapshotter) (now t : Z) :
  el_createdAt (eventLoopSnapshot_of s now t) = now.
Proof.
  unfold eventLoopSnapshot_of.
  destruct (Qlt_bool _ _); reflexivity.
Qed.

Lemma eventLoopSnapshot_of_isOverloaded {R : Rounding} (s : Snapshotter) (now t : Z) :
  el_isOverloaded (eventLoopSnapshot_of s now t) =
    Qlt_bool (maxBlockedMillis s)
      (round (inject_Z (now - t) - eventLoopSnapshotIntervalMillis s)).
Proof.
  unfold eventLoopSnapshot_of.
  destruct (Qlt_bool _ _); reflexivity.
Qed.

Lemma eventLoopSnapshot_of_exceededMillis {R : Rounding} (s : Snapshotter) (now t : Z) :
  exceededMillis (eventLoopSnapshot_of s now t) =
    Math_max
      (round (round (inject_Z (now - t) - eventLoopSnapshotIntervalMillis s)
              - maxBlockedMillis s)) 0.
Proof.
  unfold eventLoopSnapshot_of.
  destruct (Qlt_bool _ _); reflexivity.
Qed.



(** What an event-loop tick leaves in the history: the pruned history,
    plus one snapshot when an entry survived the pruning. *)
Lemma eventLoop_tick_history {R : Rounding} (w : World) (now : Z) :
  eventLoopSnapshots (self (exec (OpSnapshotEventLoop now) w)) =
    match last (_pruneSnapshots (snapshotHistoryMillis (self w))
                  (eventLoopSnapshots (self w)) now) with
    | Some e =>
      _pruneSnapshots (snapshotHistoryMillis (self w)) (eventLoopSnapshots (self w)) now
        ++ [eventLoopSnapshot_of (self w) now (el_createdAt e)]
    | None =>
      _pruneSnapshots (snapshotHistoryMillis (self w)) (eventLoopSnapshots (self w)) now
    end.
Proof.
  destruct (last (_pruneSnapshots (snapshotHistoryMillis (self w))
                    (eventLoopSnapshots (self w)) now)) as [e|] eqn:Hl.
  - rewrite (exec_eventLoop_ok _ _ _ Hl). reflexivity.
  - rewrite (exec_eventLoop_fail _ _ Hl). reflexivity.
Qed.



(** ** The read accessors *)

Lemma getMemorySample_run (w : World) (d : option Q) :
  getMemorySample d w = (Normal (_getSample (memorySnapshots (self w)) d), w).
Proof. reflexivity. Qed.

Lemma getEventLoopSample_run (w : World) (d : option Q) :
  getEventLoopSample d w = (Normal (_getSample (eventLoopSnapshots (self w)) d), w).
Proof. reflexivity. Qed.

Lemma getCpuSample_run (w : World) (d : option Q) :
  getCpuSample d w = (Normal (_getSample (cpuSnapshots (self w)) d), w).
Proof. reflexivity. Qed.

(** Against C3 as stated: three CPU events whose dates are 10, 0 and 10
    leave a history that is not in date order; [getCpuSample(5)] returns only
    its last entry, although the first entry is also within 5 ms of the most
    recent one. *)
Lemma getSample_out_of_order_counterexample :
  let first := {| cpu_createdAt := 10; cpu_isOverloaded := false |} in
  let second := {| cpu_createdAt := 0; cpu_isOverloaded := false |} in
  let third := {| cpu_createdAt := 10; cpu_isOverloaded := true |} in
  let w := execs [OpStart 0 (inr (measured 0)) true 0 None;
                  OpSnapshotCpu {| ev_createdAt := 10; isCpuOverloaded := false |};
                  OpSnapshotCpu {| ev_createdAt := 0; isCpuOverloaded := false |};
                  OpSnapshotCpu {| ev_createdAt := 10; isCpuOverloaded := true |}]
             (init default_options) in
  cpuSnapshots (self w) = [first; second; third]
  /\ fst (getCpuSample (Some 5%Q) w) = Normal [third]
  /\ entries_within (cpuSnapshots (self w)) 5 = [first; third]
  /\ fst (getCpuSample (Some 5%Q) w) <> Normal (entries_within (cpuSnapshots (self w)) 5).
Proof.
  repeat split; try reflexivity.
  vm_compute. discriminate.
Qed.

(** C3, as the code has it: the three accessors never fail and return
    [_getSample] of their history; with the duration absent or zero that is
    the entire history; on an empty history it is empty; and for [d > 0],
    on a history whose [createdAt] values are non-decreasing, it is exactly
    the entries whose [createdAt] lies within [d] milliseconds of the most
    recent entry's, which form a suffix of the history. *)
Theorem getSample_returns (w : World) (d : option Q) :
  (getMemorySample d w = (Normal (_getSample (memorySnapshots (self w)) d), w)
   /\ getEventLoopSample d w = (Normal (_getSample (eventLoopSnapshots (self w)) d), w)
   /\ getCpuSample d w = (Normal (_getSample (cpuSnapshots (self w)) d), w))
  /\ forall (A : Type) (HA : HasCreatedAt A) (history : list A),
       ((d = None \/ exists q, d = Some q /\ (q == 0)%Q) -> _getSample history d = history)
       /\ (history = [] -> _getSample history d = [])
       /\ (forall q, d = Some q -> (0 < q)%Q -> nondecreasing (times history) ->
           _getSample history d = entries_within history q
           /\ _getSample history d `suffix_of` history).
Proof.
  split; [repeat split|].
  intros A HA history. split; [|split].
  - intros Hd. apply getSample_falsy.
    destruct Hd as [->|(q & -> & Hq)]; [reflexivity|].
    simpl. now apply Qeq_bool_iff.
  - intros ->. apply getSample_nil.
  - intros q -> Hq Hnd. split.
    + apply getSample_nondecreasing; [now apply falsy_pos | exact Hnd].
    + destruct (last history) as [latest|] eqn:Hl.
      * destruct (getSample_spec history q latest (falsy_pos q Hq) Hl)
          as (pre1 & Hsplit & _).
        exists pre1. exact Hsplit.
      * apply last_None in Hl. subst history. rewrite getSample_nil. reflexivity.
Qed.

Lemma getSample_returns_witness :
  let w := execs [OpStart 0 (inr (measured 0)) false 0 None;
                  OpSnapshotEventLoop 500; OpSnapshotEventLoop 1100]
             (init default_options) in
  _getSample (eventLoopSnapshots (self w)) (Some 600%Q) =
    entries_within (eventLoopSnapshots (self w)) 600
  /\ _getSample (eventLoopSnapshots (self w)) (Some 600%Q)
       `suffix_of` eventLoopSnapshots (self w).
Proof.
  intros w.
  destruct (getSample_returns w (Some 600%Q)) as [_ Hgen].
  destruct (Hgen EventLoopSnapshot el_HasCreatedAt (eventLoopSnapshots (self w)))
    as (_ & _ & Hpos).
  apply (Hpos 600%Q).
  - reflexivity.
  - reflexivity.
  - subst w. vm_compute. repeat split; discriminate.
Defined.

(** ** Pruning *)

Lemma cons_neq_self {X : Type} (x : X) (l : list X) : x :: l <> l.
Proof.
  intros Heq. apply (f_equal length) in Heq. simpl in Heq. lia.
Qed.

Lemma times_prune {A : Type} `{HasCreatedAt A} (H_ms : Q) (l : list A) (now : Z) :
  times (_pruneSnapshots H_ms l now) `suffix_of` times l.
Proof.
  unfold times, _pruneSnapshots. rewrite fmap_drop. apply suffix_drop.
Qed.

Lemma times_prune_fresh {A : Type} `{HasCreatedAt A} (H_ms : Q) (l : list A) (now : Z) :
  nondecreasing (times l) ->
  Forall (fun t => (inject_Z (now - t) <= H_ms)%Q) (times (_pruneSnapshots H_ms l now)).
Proof.
  intros Hnd. unfold times at 1. rewrite Forall_fmap.
  apply (prune_fresh H_ms now l Hnd).
Qed.

(** C4: when a sampling operation of a signal appends a sample (it does not
    fail) to a history whose [createdAt] values are non-decreasing, the new
    history is the retained entries followed by the newest one, and no
    retained entry is older than [snapshotHistoryMillis] relative to the
    newest; with a non-negative [snapshotHistoryMillis] this holds of every
    entry of the new history. *)
Theorem pruned_after_sample {R : Rounding} (w : World) (op : Op) (sig : Signal) :
  signal_of op = Some sig ->
  logged (exec op w) = logged w ->
  nondecreasing (history_times sig (self w)) ->
  exists retained newest,
    history_times sig (self (exec op w)) = retained ++ [newest]
    /\ retained `suffix_of` history_times sig (self w)
    /\ Forall (fun t => (inject_Z (newest - t) <= snapshotHistoryMillis (self w))%Q) retained
    /\ ((0 <= snapshotHistoryMillis (self w))%Q ->
        Forall (fun t => (inject_Z (newest - t) <= snapshotHistoryMillis (self w))%Q)
          (retained ++ [newest])).
Proof.
  intros Hsig Hlog Hnd.
  assert (Hall : forall retained newest,
    Forall (fun t => (inject_Z (newest - t) <= snapshotHistoryMillis (self w))%Q) retained ->
    (0 <= snapshotHistoryMillis (self w))%Q ->
    Forall (fun t => (inject_Z (newest - t) <= snapshotHistoryMillis (self w))%Q)
      (retained ++ [newest])).
  { intros retained newest Hret Hpos. apply Forall_app. split; [exact Hret|].
    constructor; [|constructor]. now rewrite Z.sub_diag. }
  destruct op as [| | | | |now probe|now|ev]; try discriminate Hsig;
    inversion Hsig; subst sig; clear Hsig.
  - destruct probe as [err|mi].
    + rewrite exec_memory_fail in Hlog. simpl in Hlog.
      now apply cons_neq_self in Hlog.
    + exists (times (_pruneSnapshots (snapshotHistoryMillis (self w))
                       (memorySnapshots (self w)) now)), now.
      rewrite exec_memory_ok. simpl. unfold times at 1. rewrite fmap_app.
      repeat split.
      * apply times_prune.
      * now apply times_prune_fresh.
      * apply Hall. now apply times_prune_fresh.
  - destruct (last (_pruneSnapshots (snapshotHistoryMillis (self w))
                      (eventLoopSnapshots (self w)) now)) as [e|] eqn:Hl.
    + exists (times (_pruneSnapshots (snapshotHistoryMillis (self w))
                       (eventLoopSnapshots (self w)) now)), now.
      rewrite (exec_eventLoop_ok _ _ _ Hl). simpl. unfold times at 1. rewrite fmap_app.
      simpl. change (createdAt (eventLoopSnapshot_of (self w) now (el_createdAt e)))
        with (el_createdAt (eventLoopSnapshot_of (self w) now (el_createdAt e))).
      rewrite eventLoopSnapshot_of_createdAt.
      repeat split.
      * apply times_prune.
      * now apply times_prune_fresh.
      * apply Hall. now apply times_prune_fresh.
    + rewrite (exec_eventLoop_fail _ _ Hl) in Hlog. simpl in Hlog.
      now apply cons_neq_self in Hlog.
  - exists (times (_pruneSnapshots (snapshotHistoryMillis (self w))
                     (cpuSnapshots (self w)) (ev_createdAt ev))), (ev_createdAt ev).
    rewrite exec_cpu. simpl. unfold times at 1. rewrite fmap_app.
    repeat split.
    + apply times_prune.
    + now apply times_prune_fresh.
    + apply Hall. now apply times_prune_fresh.
Qed.

Lemma pruned_after_sample_witness :
  let w := execs [OpSnapshotMemory 0 (inr (measured 100));
                  OpSnapshotMemory 30000 (inr (measured 100));
                  OpSnapshotMemory 59000 (inr (measured 100))]
             (init default_options) in
  exists retained newest,
    history_times Memory (self (exec (OpSnapshotMemory 61000 (inr (measured 100))) w))
      = retained ++ [newest]
    /\ retained `suffix_of` history_times Memory (self w)
    /\ Forall (fun t => (inject_Z (newest - t) <= snapshotHistoryMillis (self w))%Q) retained
    /\ ((0 <= snapshotHistoryMillis (self w))%Q ->
        Forall (fun t => (inject_Z (newest - t) <= snapshotHistoryMillis (self w))%Q)
          (retained ++ [newest])).
Proof.
  intros w.
  apply (pruned_after_sample w (OpSnapshotMemory 61000 (inr (measured 100))) Memory).
  - reflexivity.
  - reflexivity.
  - subst w. vm_compute. repeat split; discriminate.
Defined.

(** ** A failing memory probe *)

(** C5: when [getMemoryInfo()] throws during a memory tick, whatever the
    interval callback is, the tick amounts to running that callback once, in
    a world where the Snapshotter (its three histories included) is as
    before and the exception has been logged; with the timer's own callback
    the tick completes normally and the next run is scheduled. *)
Theorem memory_probe_failure {R : Rounding} (w : World) (now : Z) (err : Error)
    (intervalCallback : M unit) :
  let logged_only :=
    {| self := self w;
       logged := (err, "Snapshotter: Memory snapshot failed."%string) :: logged w;
       scheduled := scheduled w |} in
  _snapshotMemory now (inl err) intervalCallback w = intervalCallback logged_only
  /\ _snapshotMemory now (inl err) scheduleNext w =
       (Normal tt,
        {| self := self w;
           logged := (err, "Snapshotter: Memory snapshot failed."%string) :: logged w;
           scheduled := S (scheduled w) |})
  /\ memorySnapshots (self (exec (OpSnapshotMemory now (inl err)) w)) = memorySnapshots (self w).
Proof.
  intros logged_only. repeat split.
  unfold _snapshotMemory, try_catch_finally, bind, getMemoryInfo, throw, log_exception.
  simpl. fold logged_only.
  destruct (intervalCallback logged_only) as [[[]|e] w2]; reflexivity.
Qed.

(** ** A window shorter than the sampling interval *)

(** C6: on an event-loop history whose consecutive [createdAt] values are
    at least [eventLoopSnapshotIntervalMillis] apart, [getEventLoopSample(d)]
    with [0 < d < eventLoopSnapshotIntervalMillis] returns the most recent
    entry alone (and nothing on an empty history). *)
Theorem short_window_sample (w : World) (d : Q) :
  spaced (eventLoopSnapshotIntervalMillis (self w)) (times (eventLoopSnapshots (self w))) ->
  (0 < d)%Q ->
  (d < eventLoopSnapshotIntervalMillis (self w))%Q ->
  getEventLoopSample (Some d) w =
    (Normal (option_list (last (eventLoopSnapshots (self w)))), w).
Proof.
  intros Hsp Hd0 Hd. rewrite getEventLoopSample_run. f_equal. f_equal.
  set (l := eventLoopSnapshots (self w)) in *.
  set (interval := eventLoopSnapshotIntervalMillis (self w)) in *.
  destruct (last l) as [latest|] eqn:Hl.
  - destruct (getSample_spec l d latest (falsy_pos d Hd0) Hl) as (pre1 & Hsplit & Hall & Hstop).
    simpl.
    destruct (_getSample l (Some d)) as [|y r] using rev_ind.
    + exfalso. rewrite app_nil_r in Hsplit. subst pre1.
      specialize (Hstop latest Hl). unfold withinb in Hstop.
      rewrite Z.sub_diag in Hstop. apply Qle_bool_false_iff in Hstop.
      apply (Qlt_irrefl 0). now transitivity d.
    + clear IHr.
      assert (y = latest) as ->.
      { rewrite Hsplit, (assoc_L (++)), last_snoc in Hl. now inversion Hl. }
      destruct r as [|z r _] using rev_ind; [reflexivity|].
      exfalso.
      apply Forall_app in Hall. destruct Hall as [Hall _].
      apply Forall_app in Hall. destruct Hall as [_ Hz].
      inversion Hz as [|? ? Hz1 _]; subst. unfold withinb in Hz1.
      apply Qle_bool_iff in Hz1.
      rewrite Hsplit in Hsp. unfold times in Hsp.
      rewrite fmap_app in Hsp. apply adjacent_app_r in Hsp.
      rewrite <- (assoc_L (++)) in Hsp. rewrite fmap_app in Hsp.
      apply adjacent_app_r in Hsp. simpl in Hsp. destruct Hsp as [Hgap _].
      apply (Qlt_irrefl d).
      eapply Qlt_le_trans; [exact Hd|].
      eapply Qle_trans; [exact Hgap | exact Hz1].
  - apply last_None in Hl. rewrite Hl. apply getSample_nil.
Qed.

Lemma short_window_sample_witness :
  let w := execs [OpStart 0 (inr (measured 0)) false 0 None;
                  OpSnapshotEventLoop 30000; OpSnapshotEventLoop 60500]
             (init default_options) in
  getEventLoopSample (Some (499 # 1)%Q) w =
    (Normal (option_list (last (eventLoopSnapshots (self w)))), w).
Proof.
  intros w. apply (short_window_sample w (499 # 1)%Q).
  - subst w. vm_compute. repeat split; discriminate.
  - reflexivity.
  - reflexivity.
Defined.

(** ** Who writes the histories *)

(** Against the last clause of C7 as stated: [start()] is not a sampling
    tick, and it appends the baseline entry to the event-loop history (and
    after it the snapshot of the first tick, which it runs itself). *)
Lemma start_writes_history_counterexample :
  let w := init default_options in
  let op := OpStart 0 (inr (measured 0)) false 0 None in
  is_tick op = false
  /\ eventLoopSnapshots (self w) = []
  /\ eventLoopSnapshots (self (exec op w)) =
       [baseline 0; {| el_createdAt := 0; el_isOverloaded := false; exceededMillis := 0 |}]
  /\ histories (self (exec op w)) <> histories (self w).
Proof.
  repeat split. vm_compute. discriminate.
Qed.

(** C7, as the code has it: the three read accessors leave the whole world,
    and so the three histories, exactly as before the call, whatever the
    duration; and a call that changes a history is a sampling tick or
    [start()]. *)
Theorem accessors_do_not_write {R : Rounding} (w : World) :
  (forall d, snd (getMemorySample d w) = w
             /\ snd (getEventLoopSample d w) = w
             /\ snd (getCpuSample d w) = w)
  /\ (forall op, histories (self (exec op w)) <> histories (self w) ->
                 is_tick op = true \/ is_start op = true).
Proof.
  split.
  - intros d. repeat split.
  - intros op Hchg.
    destruct op; try (left; reflexivity); try (right; reflexivity);
      exfalso; apply Hchg; destruct w; reflexivity.
Qed.

Lemma accessors_do_not_write_witness :
  let w := init default_options in
  let op := OpSnapshotCpu {| ev_createdAt := 0; isCpuOverloaded := true |} in
  is_tick op = true \/ is_start op = true.
Proof.
  intros w op.
  destruct (accessors_do_not_write w) as [_ Hwriters].
  apply (Hwriters op).
  vm_compute. discriminate.
Defined.

(** ** The overload flag of event-loop snapshots *)

Lemma eventLoopSnapshot_of_sign {R : Rounding} (s : Snapshotter) (now t : Z) :
  representable (maxBlockedMillis s) ->
  let delta := round (inject_Z (now - t) - eventLoopSnapshotIntervalMillis s)%Q in
  (0 < round (delta - maxBlockedMillis s))%Q <-> (maxBlockedMillis s < delta)%Q.
Proof.
  intros Hmb delta. apply round_sign; [apply round_idempotent | exact Hmb].
Qed.

Lemma eventLoopSnapshot_of_flag {R : Rounding} (s : Snapshotter) (now t : Z) :
  representable (maxBlockedMillis s) ->
  flag_matches_excess (eventLoopSnapshot_of s now t).
Proof.
  intros Hmb. unfold flag_matches_excess.
  rewrite eventLoopSnapshot_of_isOverloaded, eventLoopSnapshot_of_exceededMillis.
  pose proof (eventLoopSnapshot_of_sign s now t Hmb) as Hsign. simpl in Hsign.
  set (delta := round (inject_Z (now - t) - eventLoopSnapshotIntervalMillis s)%Q) in *.
  unfold Math_max.
  destruct (Qle_bool (round (delta - maxBlockedMillis s)) 0) eqn:E.
  - apply Qle_bool_iff in E.
    transitivity false; [|reflexivity].
    apply Qlt_bool_false_iff. apply Qnot_lt_le. intros Hlt.
    apply Hsign in Hlt. apply (Qlt_not_le _ _ Hlt E).
  - apply Qle_bool_false_iff in E.
    transitivity true; [|symmetry; now apply Qlt_bool_iff].
    apply Qlt_bool_iff. now apply Hsign.
Qed.

(** A property of every event-loop snapshot that the baseline has, and
    every snapshot a tick builds with the threshold of the world, holds
    along the history after any call. *)
Lemma exec_eventLoop_Forall {R : Rounding} (P : EventLoopSnapshot -> Prop)
    (op : Op) (w : World) :
  (forall now, P (baseline now)) ->
  (forall s now t, maxBlockedMillis s = maxBlockedMillis (self w) ->
                   P (eventLoopSnapshot_of s now t)) ->
  Forall P (eventLoopSnapshots (self w)) ->
  Forall P (eventLoopSnapshots (self (exec op w))).
Proof.
  intros Hbase Htick.
  assert (Hother : forall op w', is_start op = false ->
    maxBlockedMillis (self w') = maxBlockedMillis (self w)
    /\ Forall P (eventLoopSnapshots (self w')) ->
    maxBlockedMillis (self (exec op w')) = maxBlockedMillis (self w)
    /\ Forall P (eventLoopSnapshots (self (exec op w')))).
  { clear op. intros op w' Hop [Hmb Hinv].
    split; [destruct (exec_config op w') as (_ & _ & -> & _); exact Hmb|].
    destruct op as [now probe atHome t fm| | | | |now probe|now|ev]; try discriminate Hop.
    - now rewrite exec_stop.
    - now rewrite exec_accessor.
    - now rewrite exec_accessor.
    - now rewrite exec_accessor.
    - destruct probe; [rewrite exec_memory_fail | rewrite exec_memory_ok]; exact Hinv.
    - rewrite eventLoop_tick_history.
      assert (Hpr : Forall P (_pruneSnapshots (snapshotHistoryMillis (self w'))
                                (eventLoopSnapshots (self w')) now)).
      { unfold _pruneSnapshots. now apply Forall_drop. }
      destruct (last _) as [e|]; [|exact Hpr].
      apply Forall_app. split; [exact Hpr|].
      constructor; [now apply Htick | constructor].
    - rewrite exec_cpu. exact Hinv. }
  intros Hinv.
  destruct op as [now probe atHome t fm| | | | |now probe|now|ev];
    try (apply Hother; [reflexivity | split; [reflexivity | exact Hinv]]).
  apply (exec_start_keeps
           (fun w' => maxBlockedMillis (self w') = maxBlockedMillis (self w)
                      /\ Forall P (eventLoopSnapshots (self w')))).
  - exact Hother.
  - split; [reflexivity | exact Hinv].
  - split; [reflexivity|]. simpl. apply Forall_app. split; [exact Hinv|].
    constructor; [apply Hbase | constructor].
  - intros c. split; [reflexivity|]. simpl. apply Forall_app. split; [exact Hinv|].
    constructor; [apply Hbase | constructor].
Qed.

Lemma execs_eventLoop_Forall {R : Rounding} (P : EventLoopSnapshot -> Prop)
    (ops : list Op) (w : World) :
  (forall now, P (baseline now)) ->
  (forall s now t, maxBlockedMillis s = maxBlockedMillis (self w) ->
                   P (eventLoopSnapshot_of s now t)) ->
  Forall P (eventLoopSnapshots (self w)) ->
  Forall P (eventLoopSnapshots (self (execs ops w))).
Proof.
  intros Hbase Htick Hinv.
  induction ops as [|op ops IH] using rev_ind; [exact Hinv|].
  rewrite execs_snoc. apply exec_eventLoop_Forall; [exact Hbase | | exact IH].
  intros s now t Hmb. apply Htick.
  destruct (execs_config ops w) as (_ & _ & E & _). now rewrite <- E.
Qed.

(** The threshold that the constructor computes is a double. *)
Lemma init_maxBlockedMillis_representable {R : Rounding} (options : Options) :
  representable (maxBlockedMillis (self (init options))).
Proof. apply round_idempotent. Qed.

(** C9: after any sequence of calls on a freshly constructed Snapshotter,
    every event-loop snapshot in the history (the baseline pushed by
    [start()] and every one appended by a tick) has
    [isOverloaded = (exceededMillis > 0)]. *)
Theorem eventLoop_flag_invariant {R : Rounding} (options : Options) (ops : list Op) :
  Forall (fun s => el_isOverloaded s = Qlt_bool 0 (exceededMillis s))
    (eventLoopSnapshots (self (execs ops (init options)))).
Proof.
  change (Forall flag_matches_excess (eventLoopSnapshots (self (execs ops (init options))))).
  apply execs_eventLoop_Forall.
  - intros now. reflexivity.
  - intros s now t Hmb. apply eventLoopSnapshot_of_flag.
    unfold representable. rewrite Hmb. apply init_maxBlockedMillis_representable.
  - constructor.
Qed.

(** ** An event-loop history that has run empty *)

Lemma exec_keeps_empty {R : Rounding} (op : Op) (w : World) :
  is_start op = false ->
  eventLoopSnapshots (self w) = [] ->
  eventLoopSnapshots (self (exec op w)) = [].
Proof.
  intros Hop Hempty.
  destruct op as [now probe atHome t fm| | | | |now probe|now|ev]; try discriminate Hop.
  - now rewrite exec_stop.
  - now rewrite exec_accessor.
  - now rewrite exec_accessor.
  - now rewrite exec_accessor.
  - destruct probe; [rewrite exec_memory_fail | rewrite exec_memory_ok]; exact Hempty.
  - rewrite eventLoop_tick_history, Hempty. reflexivity.
  - rewrite exec_cpu. exact Hempty.
Qed.

(** Against C10 as stated: the emptied history does not stay empty for
    good.  After a gap of 70 seconds the tick at 70000 empties the history
    and the next tick records nothing; [stop()] and a new [start()] push a
    new baseline, and samples are recorded again. *)
Lemma eventLoop_history_refilled_counterexample :
  let w := execs [OpStart 0 (inr (measured 0)) false 0 None; OpSnapshotEventLoop 500]
             (init default_options) in
  let w1 := execs [OpSnapshotEventLoop 70000; OpSnapshotEventLoop 70500] w in
  let w2 := execs [OpStop; OpStart 80000 (inr (measured 0)) false 80000 None;
                   OpSnapshotEventLoop 80500] w1 in
  Forall (fun s => (snapshotHistoryMillis (self w) < inject_Z (70000 - el_createdAt s))%Q)
    (eventLoopSnapshots (self w))
  /\ eventLoopSnapshots (self w1) = []
  /\ times (eventLoopSnapshots (self w2)) = [80000; 80000; 80500]
  /\ eventLoopSnapshots (self w2) <> [].
Proof.
  split; [vm_compute; repeat constructor|].
  split; [reflexivity|]. split; [reflexivity|].
  vm_compute. discriminate.
Qed.

(** C10, as the code has it: if at an event-loop tick every entry of the
    history is older than [snapshotHistoryMillis] relative to [now], the
    tick empties the history, appends nothing, logs the caught exception,
    completes normally and schedules the next run; and after any further
    calls other than [start()] (event-loop ticks among them) the history is
    still empty: it stays empty until [start()] is called again. *)
Theorem eventLoop_history_stays_empty {R : Rounding} (w : World) (now : Z) :
  Forall (fun s => (snapshotHistoryMillis (self w) < inject_Z (now - el_createdAt s))%Q)
    (eventLoopSnapshots (self w)) ->
  let w1 := exec (OpSnapshotEventLoop now) w in
  _snapshotEventLoop now scheduleNext w = (Normal tt, w1)
  /\ eventLoopSnapshots (self w1) = []
  /\ logged w1 =
       (TypeError "Cannot destructure property 'createdAt' of undefined",
        "Snapshotter: Event Loop snapshot failed."%string) :: logged w
  /\ scheduled w1 = S (scheduled w)
  /\ forall ops, Forall (fun op => is_start op = false) ops ->
                 eventLoopSnapshots (self (execs ops w1)) = [].
Proof.
  intros Hold w1.
  pose proof (@prune_all_old _ el_HasCreatedAt _ _ _ Hold) as Hpr.
  assert (Hl : last (_pruneSnapshots (snapshotHistoryMillis (self w))
                       (eventLoopSnapshots (self w)) now) = None)
    by now rewrite Hpr.
  assert (Hw1 : w1 = _) by apply (exec_eventLoop_fail w now Hl).
  split; [|split; [|split; [|split]]].
  - unfold w1, exec.
    unfold _snapshotEventLoop, try_catch_finally, bind, update, this, last_createdAt.
    simpl. rewrite Hl. reflexivity.
  - rewrite Hw1. simpl. exact Hpr.
  - rewrite Hw1. reflexivity.
  - rewrite Hw1. reflexivity.
  - intros ops. induction ops as [|op ops IH] using rev_ind; intros Hops.
    + rewrite Hw1. simpl. exact Hpr.
    + apply Forall_app in Hops. destruct Hops as [Hops Hop].
      inversion Hop as [|? ? Hop1 _]; subst.
      rewrite execs_snoc. apply exec_keeps_empty; [exact Hop1 | now apply IH].
Qed.

Lemma eventLoop_history_stays_empty_witness :
  let w := execs [OpStart 0 (inr (measured 0)) false 0 None; OpSnapshotEventLoop 500]
             (init default_options) in
  let w1 := exec (OpSnapshotEventLoop 70000) w in
  eventLoopSnapshots (self w) <> []
  /\ eventLoopSnapshots (self w1) = []
  /\ eventLoopSnapshots
       (self (execs [OpSnapshotEventLoop 70500; OpSnapshotEventLoop 71000] w1)) = [].
Proof.
  intros w w1.
  assert (Hold : Forall (fun s => (snapshotHistoryMillis (self w)
                                   < inject_Z (70000 - el_createdAt s))%Q)
                   (eventLoopSnapshots (self w))).
  { subst w. vm_compute. repeat constructor. }
  destruct (eventLoop_history_stays_empty w 70000 Hold) as (_ & Hempty & _ & _ & Hstay).
  split; [subst w; vm_compute; discriminate|].
  split; [exact Hempty|].
  apply Hstay. repeat constructor.
Defined.

(** ** The concurrency bounds of the AutoscaledPool *)

Module AutoscaledPoolFacts.
Import AutoscaledPool.

Lemma create_within_bounds (c : Config) : valid c -> within_bounds c (create c).
Proof. intros (_ & Hle & _). unfold within_bounds. simpl. lia. Qed.

Lemma scaleDownStep_nonneg (c : Config) (p : Pool) :
  valid c -> within_bounds c p -> 0 <= scaleDownStep c p.
Proof.
  intros (Hmin & _ & _ & Hratio) [Hlo _]. unfold scaleDownStep.
  assert (Hprod : (0 <= scaleDownStepRatio c * inject_Z (desiredConcurrency p))%Q).
  { apply Qmult_le_0_compat; [exact Hratio|].
    change 0%Q with (inject_Z 0). rewrite <- Zle_Qle. lia. }
  apply Qceiling_resp_le in Hprod. exact Hprod.
Qed.

Lemma autoscale_within_bounds (c : Config) (s : Snapshotter) (demand : bool) (p : Pool) :
  valid c -> within_bounds c p -> within_bounds c (autoscale c s demand p).
Proof.
  intros Hv Hp. pose proof (scaleDownStep_nonneg c p Hv Hp) as Hstep.
  destruct Hv as (_ & Hle & Hup & _). destruct Hp as [Hlo Hhi].
  unfold autoscale, within_bounds.
  destruct (negb (isSystemIdle _ s (shortWindowMillis c))); [simpl; lia|].
  destruct (_ && _ && demand); simpl; lia.
Qed.

Lemma step_within_bounds (c : Config) (p : Pool) (e : Event) :
  valid c -> within_bounds c p -> within_bounds c (step c p e).
Proof.
  intros Hv Hp. destruct e as [s demand|taskReady| | | |]; simpl.
  - destruct (isStopped p || isPaused p); [exact Hp|].
    now apply autoscale_within_bounds.
  - destruct (_ && _ && taskReady && _); exact Hp.
  - exact Hp.
  - exact Hp.
  - exact Hp.
  - exact Hp.
Qed.

End AutoscaledPoolFacts.

(** C8: for a pool whose options are valid, after any interleaving of
    autoscaling ticks (over any sample histories), task launches and
    completions, pauses, resumes and aborts, [desiredConcurrency] lies in
    the closed interval [[minConcurrency, maxConcurrency]]. *)
Theorem desiredConcurrency_within_bounds
    (c : AutoscaledPool.Config) (events : list AutoscaledPool.Event) :
  AutoscaledPool.valid c ->
  AutoscaledPool.minConcurrency c
    <= AutoscaledPool.desiredConcurrency (AutoscaledPool.run c events)
    <= AutoscaledPool.maxConcurrency c.
Proof.
  intros Hv. unfold AutoscaledPool.run.
  change (AutoscaledPool.within_bounds c
            (foldl (AutoscaledPool.step c) (AutoscaledPool.create c) events)).
  induction events as [|e events IH] using rev_ind.
  - now apply AutoscaledPoolFacts.create_within_bounds.
  - rewrite foldl_snoc. now apply AutoscaledPoolFacts.step_within_bounds.
Qed.

Lemma desiredConcurrency_within_bounds_witness :
  let events :=
    repeat (AutoscaledPool.Autoscale AutoscaledPool.idle_snapshotter true) 30
    ++ [AutoscaledPool.Autoscale AutoscaledPool.overloaded_snapshotter true;
        AutoscaledPool.Launch true;
        AutoscaledPool.Autoscale AutoscaledPool.overloaded_snapshotter true;
        AutoscaledPool.Complete;
        AutoscaledPool.Autoscale AutoscaledPool.idle_snapshotter true] in
  1 <= AutoscaledPool.desiredConcurrency (AutoscaledPool.run AutoscaledPool.scenario_config events)
    <= 10.
Proof.
  intros events.
  apply (desiredConcurrency_within_bounds AutoscaledPool.scenario_config events).
  unfold AutoscaledPool.valid. simpl. repeat split; try lia. discriminate.
Defined.

(** The scenario of the specification: with ready work at every tick and a
    permanently idle system, [desiredConcurrency] climbs from 1 to 10 and
    stays there; two overloaded ticks then bring it down to 8. *)
Example pool_scenario :
  (fun n => AutoscaledPool.desiredConcurrency
     (AutoscaledPool.run AutoscaledPool.scenario_config
        (repeat (AutoscaledPool.Autoscale AutoscaledPool.idle_snapshotter true) n)))
    <$> [0; 2; 4; 18; 30; 40]%nat = [1; 2; 3; 10; 10; 10]
  /\ AutoscaledPool.desiredConcurrency
       (AutoscaledPool.run AutoscaledPool.scenario_config
          (repeat (AutoscaledPool.Autoscale AutoscaledPool.idle_snapshotter true) 30
           ++ [AutoscaledPool.Autoscale AutoscaledPool.overloaded_snapshotter true;
               AutoscaledPool.Autoscale AutoscaledPool.overloaded_snapshotter true])) = 8.
Proof. split; vm_compute; reflexivity. Qed.

(** * Further properties of the Snapshotter *)

(** ** [_pruneSnapshots] on any history *)

Lemma prune_head_fresh {A : Type} `{HasCreatedAt A} (H_ms : Q) (l : list A) (now : Z) (s : A) :
  head (_pruneSnapshots H_ms l now) = Some s -> ~ is_old H_ms now s.
Proof.
  induction l as [|x l IH]; [discriminate|].
  rewrite prune_cons.
  destruct (Qlt_bool H_ms (inject_Z (now - createdAt x))) eqn:E; [exact IH|].
  simpl. intros Hs. inversion Hs; subst x.
  apply Qlt_bool_false_iff in E. unfold is_old. now apply Qle_not_lt.
Qed.

Lemma prune_id_of_fresh_head {A : Type} `{HasCreatedAt A} (H_ms : Q) (l : list A) (now : Z) :
  (forall s, head l = Some s -> ~ is_old H_ms now s) ->
  _pruneSnapshots H_ms l now = l.
Proof.
  destruct l as [|x l]; [reflexivity|].
  intros Hhead. rewrite prune_cons.
  destruct (Qlt_bool H_ms (inject_Z (now - createdAt x))) eqn:E; [|reflexivity].
  apply Qlt_bool_iff in E. exfalso. now apply (Hhead x).
Qed.

(** X1: whatever the order of the dates, [_pruneSnapshots] removes a
    prefix of the history, every removed entry is older than
    [snapshotHistoryMillis] at [now], and the first entry it keeps is not:
    it stops at the first entry that is not old, also when older entries
    follow it. *)
Theorem prune_removes_old_prefix {A : Type} `{HasCreatedAt A}
    (H_ms : Q) (l : list A) (now : Z) :
  exists removed,
    l = removed ++ _pruneSnapshots H_ms l now
    /\ Forall (is_old H_ms now) removed
    /\ (forall s, head (_pruneSnapshots H_ms l now) = Some s -> ~ is_old H_ms now s).
Proof.
  induction l as [|x l IH].
  - exists []. repeat split; [constructor | discriminate].
  - destruct IH as (removed & Hsplit & Hold & _).
    destruct (Qlt_bool H_ms (inject_Z (now - createdAt x))) eqn:E.
    + exists (x :: removed). split; [|split].
      * rewrite prune_cons, E. simpl. now rewrite <- Hsplit.
      * constructor; [now apply Qlt_bool_iff in E | exact Hold].
      * apply prune_head_fresh.
    + exists []. split; [|split].
      * now rewrite prune_cons, E.
      * constructor.
      * apply prune_head_fresh.
Qed.

(** X2: pruning twice at the same [now] removes nothing more than pruning
    once. *)
Theorem prune_idempotent {A : Type} `{HasCreatedAt A} (H_ms : Q) (l : list A) (now : Z) :
  _pruneSnapshots H_ms (_pruneSnapshots H_ms l now) now = _pruneSnapshots H_ms l now.
Proof.
  apply prune_id_of_fresh_head. apply prune_head_fresh.
Qed.

(** ** [_getSample] on any history *)

(** X3: whatever the order of the dates, for a duration that is neither
    absent nor zero [_getSample] returns a suffix of the history all of
    whose entries are within the duration of the last entry's date, and the
    entry just before that suffix, when there is one, is not. *)
Theorem getSample_longest_within_suffix {A : Type} `{HasCreatedAt A}
    (l : list A) (d : Q) (latest : A) :
  ~ (d == 0)%Q ->
  last l = Some latest ->
  exists before,
    l = before ++ _getSample l (Some d)
    /\ Forall (fun s => (inject_Z (createdAt latest - createdAt s) <= d)%Q)
         (_getSample l (Some d))
    /\ (forall x, last before = Some x -> (d < inject_Z (createdAt latest - createdAt x))%Q).
Proof.
  intros Hd Hl.
  assert (Hf : falsy (Some d) = false).
  { simpl. destruct (Qeq_bool d 0) eqn:E; [|reflexivity].
    apply Qeq_bool_iff in E. contradiction. }
  destruct (getSample_spec l d latest Hf Hl) as (pre1 & Hsplit & Hall & Hstop).
  exists pre1. split; [exact Hsplit|]. split.
  - eapply Forall_impl; [exact Hall|]. intros s Hs. now apply Qle_bool_iff in Hs.
  - intros x Hx. apply Qle_bool_false_iff. now apply Hstop.
Qed.

Lemma getSample_longest_within_suffix_witness :
  let latest := {| cpu_createdAt := 10; cpu_isOverloaded := true |} in
  let l := [ {| cpu_createdAt := 10; cpu_isOverloaded := false |};
             {| cpu_createdAt := 0; cpu_isOverloaded := false |};
             latest ] in
  exists before,
    l = before ++ _getSample l (Some 5%Q)
    /\ Forall (fun s => (inject_Z (createdAt latest - createdAt s) <= 5)%Q)
         (_getSample l (Some 5%Q))
    /\ (forall x, last before = Some x -> (5 < inject_Z (createdAt latest - createdAt x))%Q).
Proof.
  intros latest l.
  apply (getSample_longest_within_suffix l 5%Q latest).
  - vm_compute. discriminate.
  - reflexivity.
Defined.

(** X4: a negative duration yields an empty sample, whatever the
    history. *)
Theorem getSample_negative_duration {A : Type} `{HasCreatedAt A} (l : list A) (d : Q) :
  (d < 0)%Q -> _getSample l (Some d) = [].
Proof.
  intros Hd.
  assert (Hf : falsy (Some d) = false).
  { simpl. destruct (Qeq_bool d 0) eqn:E; [|reflexivity].
    apply Qeq_bool_iff in E. rewrite E in Hd. now apply Qlt_irrefl in Hd. }
  destruct (last l) as [latest|] eqn:Hl.
  - destruct (getSample_spec l d latest Hf Hl) as (pre1 & Hsplit & Hall & _).
    destruct (_getSample l (Some d)) as [|y r _] using rev_ind; [reflexivity|].
    exfalso.
    assert (y = latest) as ->.
    { rewrite Hsplit, (assoc_L (++)), last_snoc in Hl. now inversion Hl. }
    apply Forall_app in Hall. destruct Hall as [_ Hy].
    inversion Hy as [|? ? Hy1 _]; subst. unfold withinb in Hy1.
    rewrite Z.sub_diag in Hy1. apply Qle_bool_iff in Hy1.
    apply (Qlt_irrefl d). now apply Qlt_le_trans with 0%Q.
  - apply last_None in Hl. subst l. apply getSample_nil.
Qed.

Lemma getSample_negative_duration_witness :
  _getSample [ {| cpu_createdAt := 10; cpu_isOverloaded := false |} ] (Some (-1)%Q) = [].
Proof.
  apply (getSample_negative_duration
           [ {| cpu_createdAt := 10; cpu_isOverloaded := false |} ] (-1)%Q).
  reflexivity.
Defined.

(** X5: a positive duration always yields the most recent entry: the
    sample ends with the last entry of the history (and is empty only when
    the history is). *)
Theorem getSample_positive_keeps_latest {A : Type} `{HasCreatedAt A} (l : list A) (d : Q) :
  (0 < d)%Q -> last (_getSample l (Some d)) = last l.
Proof.
  intros Hd.
  destruct (last l) as [latest|] eqn:Hl.
  - destruct (getSample_spec l d latest (falsy_pos d Hd) Hl) as (pre1 & Hsplit & _ & Hstop).
    destruct (_getSample l (Some d)) as [|y r _] using rev_ind.
    + exfalso. rewrite app_nil_r in Hsplit. subst pre1.
      specialize (Hstop latest Hl). unfold withinb in Hstop.
      rewrite Z.sub_diag in Hstop. apply Qle_bool_false_iff in Hstop.
      apply (Qlt_irrefl 0). now transitivity d.
    + rewrite Hsplit, (assoc_L (++)), last_snoc in Hl. now rewrite last_snoc.
  - apply last_None in Hl. subst l. now rewrite getSample_nil.
Qed.

Lemma getSample_positive_keeps_latest_witness :
  last (_getSample [ {| cpu_createdAt := 10; cpu_isOverloaded := false |};
                     {| cpu_createdAt := 0; cpu_isOverloaded := true |} ] (Some (1 # 2)%Q))
  = Some {| cpu_createdAt := 0; cpu_isOverloaded := true |}.
Proof.
  apply (getSample_positive_keeps_latest
           [ {| cpu_createdAt := 10; cpu_isOverloaded := false |};
             {| cpu_createdAt := 0; cpu_isOverloaded := true |} ] (1 # 2)%Q).
  reflexivity.
Defined.

Lemma getSample_loop_ends_with_sample {A : Type} `{HasCreatedAt A}
    (t : Z) (d : Q) (pre post : list A) :
  exists k, getSample_loop (pre ++ post) t d (length pre) post = k ++ post.
Proof.
  destruct (getSample_loop_spec t d pre post) as (_ & r & _ & Hloop & _).
  exists r. exact Hloop.
Qed.

Lemma getSample_loop_monotone {A : Type} `{HasCreatedAt A}
    (t : Z) (d1 d2 : Q) (pre post : list A) :
  (d1 <= d2)%Q ->
  getSample_loop (pre ++ post) t d1 (length pre) post
    `suffix_of` getSample_loop (pre ++ post) t d2 (length pre) post.
Proof.
  intros Hle. revert post.
  induction pre as [|x pre IH] using rev_ind; intros post; [reflexivity|].
  rewrite length_app. simpl length. rewrite Nat.add_1_r.
  cbn [getSample_loop].
  rewrite <- (assoc_L (++)). simpl app.
  rewrite list_lookup_middle by reflexivity.
  destruct (Qle_bool (inject_Z (t - createdAt x)) d1) eqn:E1.
  - apply Qle_bool_iff in E1.
    assert (E2 : Qle_bool (inject_Z (t - createdAt x)) d2 = true).
    { apply Qle_bool_iff. now apply Qle_trans with d1. }
    rewrite E2. apply IH.
  - destruct (Qle_bool (inject_Z (t - createdAt x)) d2); [|reflexivity].
    destruct (getSample_loop_ends_with_sample t d2 pre (x :: post)) as [k ->].
    exists (k ++ [x]). now rewrite <- (assoc_L (++)).
Qed.

(** X6: a longer duration never yields less: for [0 < d1 <= d2] the sample
    for [d1] is a suffix of the sample for [d2], whatever the history. *)
Theorem getSample_monotone {A : Type} `{HasCreatedAt A} (l : list A) (d1 d2 : Q) :
  (0 < d1)%Q -> (d1 <= d2)%Q ->
  _getSample l (Some d1) `suffix_of` _getSample l (Some d2).
Proof.
  intros Hd1 Hle.
  assert (Hd2 : (0 < d2)%Q) by now apply Qlt_le_trans with d1.
  unfold _getSample. rewrite (falsy_pos d1 Hd1), (falsy_pos d2 Hd2).
  destruct (length l) as [|i] eqn:Elen; [reflexivity|].
  destruct (l !! i) as [latest|]; [|reflexivity].
  rewrite <- Elen.
  pose proof (getSample_loop_monotone (createdAt latest) d1 d2 l [] Hle) as Hm.
  now rewrite app_nil_r in Hm.
Qed.

Lemma getSample_monotone_witness :
  let l := [ {| cpu_createdAt := 0; cpu_isOverloaded := false |};
             {| cpu_createdAt := 400; cpu_isOverloaded := false |};
             {| cpu_createdAt := 900; cpu_isOverloaded := true |} ] in
  _getSample l (Some 500%Q) `suffix_of` _getSample l (Some 1000%Q).
Proof.
  intros l. apply (getSample_monotone l 500%Q 1000%Q); reflexivity || (vm_compute; discriminate).
Defined.

(** ** [start()] and the memory ceiling *)

(** What the first ticks leave, run as calls of their own in a world
    [w]: the event-loop history is that of the event-loop tick, the memory
    history that of the memory tick when it has ended. *)
Lemma first_ticks_histories {R : Rounding} (w : World) (t : Z)
    (fm : option (Z * (Error + MemInfo))) :
  eventLoopSnapshots (self (execs (first_ticks t fm) w))
  = eventLoopSnapshots (self (exec (OpSnapshotEventLoop t) w))
  /\ cpuSnapshots (self (execs (first_ticks t fm) w)) = cpuSnapshots (self w)
  /\ maxMemoryBytes (self (execs (first_ticks t fm) w)) = maxMemoryBytes (self w)
  /\ memorySnapshots (self (execs (first_ticks t fm) w))
     = match fm with
       | Some (now, inr mi) =>
         _pruneSnapshots (snapshotHistoryMillis (self w)) (memorySnapshots (self w)) now
           ++ [memorySnapshot_of (self w) now mi]
       | _ => memorySnapshots (self w)
       end.
Proof.
  unfold first_ticks. rewrite execs_cons.
  assert (Hw1 : cpuSnapshots (self (exec (OpSnapshotEventLoop t) w)) = cpuSnapshots (self w)
                /\ maxMemoryBytes (self (exec (OpSnapshotEventLoop t) w))
                   = maxMemoryBytes (self w)
                /\ memorySnapshots (self (exec (OpSnapshotEventLoop t) w))
                   = memorySnapshots (self w)
                /\ snapshotHistoryMillis (self (exec (OpSnapshotEventLoop t) w))
                   = snapshotHistoryMillis (self w)
                /\ minFreeMemoryRatio (self (exec (OpSnapshotEventLoop t) w))
                   = minFreeMemoryRatio (self w)).
  { destruct (last (_pruneSnapshots (snapshotHistoryMillis (self w))
                      (eventLoopSnapshots (self w)) t)) as [e|] eqn:Hl.
    - rewrite (exec_eventLoop_ok _ _ _ Hl). simpl. auto.
    - rewrite (exec_eventLoop_fail _ _ Hl). simpl. auto. }
  destruct Hw1 as (Hcpu & Hmax & Hmem & Hhist & Hmin).
  generalize dependent (exec (OpSnapshotEventLoop t) w). intros w1 Hcpu Hmax Hmem Hhist Hmin.
  destruct fm as [[now [err|mi]]|].
  - rewrite execs_cons, exec_memory_fail. simpl. auto.
  - rewrite execs_cons, exec_memory_ok. simpl.
    rewrite Hhist, Hmem. unfold memorySnapshot_of. rewrite Hmax, Hmin. auto.
  - simpl. auto.
Qed.

(** The first event-loop tick of [start()], when it is not later than
    the retention window after the baseline: the baseline survives the
    pruning and the tick's snapshot is measured from it. *)
Lemma first_eventLoop_tick {R : Rounding} (w : World) (s : Snapshotter) (now t : Z) :
  snapshotHistoryMillis s = snapshotHistoryMillis (self w) ->
  eventLoopSnapshotIntervalMillis s = eventLoopSnapshotIntervalMillis (self w) ->
  maxBlockedMillis s = maxBlockedMillis (self w) ->
  eventLoopSnapshots s = eventLoopSnapshots (self w) ->
  (inject_Z (t - now) <= snapshotHistoryMillis (self w))%Q ->
  eventLoopSnapshots (self (exec (OpSnapshotEventLoop t) (with_baseline now s w)))
  = _pruneSnapshots (snapshotHistoryMillis (self w))
      (eventLoopSnapshots (self w) ++ [baseline now]) t
      ++ [eventLoopSnapshot_of (self w) t now].
Proof.
  intros Hhist Hint Hmb Hel Hfresh.
  assert (Hl : last (_pruneSnapshots (snapshotHistoryMillis (self (with_baseline now s w)))
                       (eventLoopSnapshots (self (with_baseline now s w))) t)
               = Some (baseline now)).
  { apply (@prune_keeps_last _ el_HasCreatedAt).
    - simpl. apply last_snoc.
    - simpl. rewrite Hhist. exact Hfresh. }
  rewrite (exec_eventLoop_ok _ _ _ Hl). simpl.
  rewrite Hhist, Hel. f_equal. f_equal.
  unfold eventLoopSnapshot_of. simpl. now rewrite Hint, Hmb.
Qed.

(** X7: when a non-zero memory ceiling is set already (by the constructor,
    from [maxMemoryMbytes]), [start()] does not consult the memory probe:
    whatever the probe would answer (a failure included) it completes
    normally in one and the same world.  That world keeps the ceiling and
    the CPU history; when the first event-loop tick, which [start()] runs
    itself, is not later than the retention window after the baseline, its
    event-loop history is the pruned history with the baseline, followed by
    that tick's snapshot, measured from the baseline. *)
Theorem start_with_configured_ceiling {R : Rounding} (w : World) (bytes : Q) (now : Z)
    (probe : Error + MemInfo) (atHome : bool) (firstEventLoopTick : Z)
    (firstMemoryTick : option (Z * (Error + MemInfo))) :
  maxMemoryBytes (self w) = Some bytes ->
  ~ (bytes == 0)%Q ->
  exists w',
    start now probe atHome firstEventLoopTick firstMemoryTick w = (Normal tt, w')
    /\ (forall probe' atHome',
          start now probe' atHome' firstEventLoopTick firstMemoryTick w = (Normal tt, w'))
    /\ maxMemoryBytes (self w') = Some bytes
    /\ cpuSnapshots (self w') = cpuSnapshots (self w)
    /\ ((inject_Z (firstEventLoopTick - now) <= snapshotHistoryMillis (self w))%Q ->
        eventLoopSnapshots (self w')
        = _pruneSnapshots (snapshotHistoryMillis (self w))
            (eventLoopSnapshots (self w) ++ [baseline now]) firstEventLoopTick
            ++ [eventLoopSnapshot_of (self w) firstEventLoopTick now]).
Proof.
  intros Hm Hnz.
  assert (Hf : falsy (maxMemoryBytes (self w)) = false).
  { rewrite Hm. simpl. destruct (Qeq_bool bytes 0) eqn:E; [|reflexivity].
    apply Qeq_bool_iff in E. contradiction. }
  exists (execs (first_ticks firstEventLoopTick firstMemoryTick)
            (with_baseline now (self w) w)).
  destruct (first_ticks_histories (with_baseline now (self w) w)
              firstEventLoopTick firstMemoryTick) as (Hel & Hcpu & Hmax & _).
  split; [now apply start_run_known|].
  split; [intros probe' atHome'; now apply start_run_known|].
  split; [rewrite Hmax; exact Hm|].
  split; [rewrite Hcpu; reflexivity|].
  intros Hfresh. rewrite Hel. now apply first_eventLoop_tick.
Qed.

Lemma start_with_configured_ceiling_witness :
  let w := init scenario_options in
  exists w',
    start 0 (inl (ProbeError "unavailable")) false 100 None w = (Normal tt, w')
    /\ (forall probe' atHome', start 0 probe' atHome' 100 None w = (Normal tt, w'))
    /\ maxMemoryBytes (self w') = Some (1 * 1024 * 1024)%Q
    /\ cpuSnapshots (self w') = cpuSnapshots (self w)
    /\ ((inject_Z (100 - 0) <= snapshotHistoryMillis (self w))%Q ->
        eventLoopSnapshots (self w')
        = _pruneSnapshots (snapshotHistoryMillis (self w))
            (eventLoopSnapshots (self w) ++ [baseline 0]) 100
            ++ [eventLoopSnapshot_of (self w) 100 0]).
Proof.
  intros w.
  apply (start_with_configured_ceiling w (1 * 1024 * 1024)%Q 0
           (inl (ProbeError "unavailable")) false 100 None).
  - reflexivity.
  - vm_compute. discriminate.
Defined.

(** X8: when no memory ceiling is set and the memory probe fails,
    [start()] throws the probe's error and changes nothing: no baseline
    entry is pushed, and no tick is run. *)
Theorem start_probe_failure {R : Rounding} (w : World) (now : Z) (err : Error) (atHome : bool)
    (firstEventLoopTick : Z) (firstMemoryTick : option (Z * (Error + MemInfo))) :
  falsy (maxMemoryBytes (self w)) = true ->
  start now (inl err) atHome firstEventLoopTick firstMemoryTick w = (Throw err, w).
Proof.
  intros Hf. unfold start, bind, this, getMemoryInfo, throw. now rewrite Hf.
Qed.

Lemma start_probe_failure_witness :
  start 0 (inl (ProbeError "unavailable")) true 0 None (init default_options)
  = (Throw (ProbeError "unavailable"), init default_options).
Proof.
  apply (start_probe_failure (init default_options) 0 (ProbeError "unavailable") true
           0 None).
  reflexivity.
Defined.

(** X9: when no memory ceiling is set and the probe measures [totalBytes],
    [start()] completes normally and sets [maxMemoryBytes] to [totalBytes]
    on the platform, and otherwise to a whole number of bytes [c] with
    [totalBytes / 4 <= c < totalBytes / 4 + 1].  It leaves the CPU history
    alone.  When the first event-loop tick, which [start()] runs itself, is
    not later than the retention window after the baseline, the event-loop
    history is the pruned history with the baseline, followed by that
    tick's snapshot; and when the first memory tick has ended with a
    measurement, its snapshot is judged against the ceiling just set. *)
Theorem start_measures_ceiling {R : Rounding} (w : World) (now : Z) (mi : MemInfo) (atHome : bool)
    (firstEventLoopTick : Z) (firstMemoryTick : option (Z * (Error + MemInfo))) :
  falsy (maxMemoryBytes (self w)) = true ->
  exists w' c,
    start now (inr mi) atHome firstEventLoopTick firstMemoryTick w = (Normal tt, w')
    /\ maxMemoryBytes (self w') = Some (inject_Z c)
    /\ (if atHome then c = totalBytes mi
        else 4 * c - 4 < totalBytes mi <= 4 * c)
    /\ cpuSnapshots (self w') = cpuSnapshots (self w)
    /\ ((inject_Z (firstEventLoopTick - now) <= snapshotHistoryMillis (self w))%Q ->
        eventLoopSnapshots (self w')
        = _pruneSnapshots (snapshotHistoryMillis (self w))
            (eventLoopSnapshots (self w) ++ [baseline now]) firstEventLoopTick
            ++ [eventLoopSnapshot_of (self w) firstEventLoopTick now])
    /\ memorySnapshots (self w')
       = match firstMemoryTick with
         | Some (now', inr mi') =>
           _pruneSnapshots (snapshotHistoryMillis (self w)) (memorySnapshots (self w)) now'
             ++ [memorySnapshot_of (set_maxMemoryBytes (inject_Z c) (self w)) now' mi']
         | _ => memorySnapshots (self w)
         end.
Proof.
  intros Hf.
  set (c := if atHome then totalBytes mi else Qceiling (inject_Z (totalBytes mi) / 4)).
  assert (Hc : measured_ceiling atHome mi = inject_Z c).
  { unfold measured_ceiling, c. now destruct atHome. }
  exists (execs (first_ticks firstEventLoopTick firstMemoryTick)
            (with_baseline now (set_maxMemoryBytes (inject_Z c) (self w)) w)), c.
  destruct (first_ticks_histories
              (with_baseline now (set_maxMemoryBytes (inject_Z c) (self w)) w)
              firstEventLoopTick firstMemoryTick) as (Hel & Hcpu & Hmax & Hmem).
  split; [rewrite <- Hc; now apply start_run_measured|].
  split; [rewrite Hmax; reflexivity|].
  split.
  { unfold c. destruct atHome; [reflexivity|].
    pose proof (Qceiling_lt (inject_Z (totalBytes mi) / 4)) as Hlt.
    pose proof (Qle_ceiling (inject_Z (totalBytes mi) / 4)) as Hle.
    set (k := Qceiling (inject_Z (totalBytes mi) / 4)) in *.
    unfold Qlt, Qdiv, Qmult, Qinv, inject_Z in Hlt.
    unfold Qle, Qdiv, Qmult, Qinv, inject_Z in Hle.
    simpl in Hlt, Hle. lia. }
  split; [rewrite Hcpu; reflexivity|].
  split.
  { intros Hfresh. rewrite Hel. now apply first_eventLoop_tick. }
  rewrite Hmem. destruct firstMemoryTick as [[now' [err|mi']]|]; reflexivity.
Qed.

Lemma start_measures_ceiling_witness :
  let w := init default_options in
  exists w' c,
    start 0 (inr (measured 0)) false 100 (Some (120, inr (measured 996147))) w
    = (Normal tt, w')
    /\ maxMemoryBytes (self w') = Some (inject_Z c)
    /\ 4 * c - 4 < 1048576 <= 4 * c
    /\ cpuSnapshots (self w') = cpuSnapshots (self w)
    /\ ((inject_Z (100 - 0) <= snapshotHistoryMillis (self w))%Q ->
        eventLoopSnapshots (self w')
        = _pruneSnapshots (snapshotHistoryMillis (self w))
            (eventLoopSnapshots (self w) ++ [baseline 0]) 100
            ++ [eventLoopSnapshot_of (self w) 100 0])
    /\ memorySnapshots (self w')
       = _pruneSnapshots (snapshotHistoryMillis (self w)) (memorySnapshots (self w)) 120
           ++ [memorySnapshot_of (set_maxMemoryBytes (inject_Z c) (self w))
                 120 (measured 996147)].
Proof.
  intros w.
  apply (start_measures_ceiling w 0 (measured 0) false 100
           (Some (120, inr (measured 996147)))).
  reflexivity.
Defined.

(** ** What a tick touches *)

(** X10: a sampling tick writes only the history of its own signal: the
    other two histories and the memory ceiling are exactly as before,
    whether the tick succeeds or fails. *)
Theorem tick_writes_own_history {R : Rounding} (w : World) (op : Op) (sig : Signal) :
  signal_of op = Some sig ->
  (sig <> Memory -> memorySnapshots (self (exec op w)) = memorySnapshots (self w))
  /\ (sig <> EventLoop -> eventLoopSnapshots (self (exec op w)) = eventLoopSnapshots (self w))
  /\ (sig <> Cpu -> cpuSnapshots (self (exec op w)) = cpuSnapshots (self w))
  /\ maxMemoryBytes (self (exec op w)) = maxMemoryBytes (self w).
Proof.
  intros Hsig.
  destruct op as [| | | | |now probe|now|ev]; try discriminate Hsig;
    inversion Hsig; subst sig; clear Hsig.
  - destruct probe as [err|mi]; [rewrite exec_memory_fail | rewrite exec_memory_ok];
      simpl; repeat split; intros; congruence.
  - destruct (last (_pruneSnapshots (snapshotHistoryMillis (self w))
                      (eventLoopSnapshots (self w)) now)) as [e|] eqn:Hl.
    + rewrite (exec_eventLoop_ok _ _ _ Hl). simpl. repeat split; intros; congruence.
    + rewrite (exec_eventLoop_fail _ _ Hl). simpl. repeat split; intros; congruence.
  - rewrite exec_cpu. simpl. repeat split; intros; congruence.
Qed.

Lemma tick_writes_own_history_witness :
  let w := execs [OpStart 0 (inr (measured 0)) false 0 None;
                  OpSnapshotMemory 0 (inr (measured 100))]
             (init default_options) in
  let op := OpSnapshotEventLoop 70000 in
  memorySnapshots (self (exec op w)) = memorySnapshots (self w).
Proof.
  intros w op.
  destruct (tick_writes_own_history w op EventLoop) as (Hmem & _).
  - reflexivity.
  - apply Hmem. discriminate.
Defined.

Lemma try_catch_finally_fin (body : M unit) (handler : Error -> M unit) (fin : M unit)
    (w w1 : World) :
  match body w with
  | (Normal _, wb) => (Normal tt, wb)
  | (Throw e, wb) => handler e wb
  end = (Normal tt, w1) ->
  try_catch_finally body handler fin w = fin w1.
Proof.
  intros Hcatch. unfold try_catch_finally. rewrite Hcatch. simpl.
  destruct (fin w1) as [[[]|e] w2]; reflexivity.
Qed.

(** X11: the two timer ticks invoke their interval callback exactly once,
    as their last step, whatever happens before: the outcome of the tick is
    the outcome of the callback, run in the world the tick leaves (history
    and log as after the tick, nothing scheduled yet). *)
Theorem tick_always_calls_back {R : Rounding} (w : World) (now : Z) (probe : Error + MemInfo)
    (intervalCallback : M unit) :
  let before_callback (op : Op) :=
    {| self := self (exec op w); logged := logged (exec op w); scheduled := scheduled w |} in
  _snapshotMemory now probe intervalCallback w
    = intervalCallback (before_callback (OpSnapshotMemory now probe))
  /\ _snapshotEventLoop now intervalCallback w
    = intervalCallback (before_callback (OpSnapshotEventLoop now)).
Proof.
  intros before_callback. unfold before_callback. split.
  - apply try_catch_finally_fin. destruct probe as [err|mi]; reflexivity.
  - apply try_catch_finally_fin.
    destruct (last (_pruneSnapshots (snapshotHistoryMillis (self w))
                      (eventLoopSnapshots (self w)) now)) as [e|] eqn:Hl.
    + rewrite (exec_eventLoop_ok _ _ _ Hl).
      unfold bind, update, this, last_createdAt. simpl. rewrite Hl. reflexivity.
    + rewrite (exec_eventLoop_fail _ _ Hl).
      unfold bind, update, this, last_createdAt. simpl. rewrite Hl. reflexivity.
Qed.

Lemma tick_time_of_signal (op : Op) (sig : Signal) :
  signal_of op = Some sig -> exists t, tick_time op = Some t.
Proof. destruct op; try discriminate; intros _; eexists; reflexivity. Qed.

Lemma adjacent_snoc (R : Z -> Z -> Prop) (ts : list Z) (t : Z) :
  adjacent R ts ->
  (forall t0, last ts = Some t0 -> R t0 t) ->
  adjacent R (ts ++ [t]).
Proof.
  induction ts as [|t1 ts IH]; intros Hadj Hlast; [simpl; trivial|].
  destruct ts as [|t2 ts].
  - simpl. split; [|trivial]. now apply Hlast.
  - destruct Hadj as [Hhd Htl]. split; [exact Hhd|].
    apply IH; [exact Htl|]. intros t0 Ht0. apply Hlast.
    now rewrite last_cons_cons.
Qed.

Lemma adjacent_suffix (R : Z -> Z -> Prop) (l1 l2 : list Z) :
  l1 `suffix_of` l2 -> adjacent R l2 -> adjacent R l1.
Proof. intros [k ->]. apply adjacent_app_r. Qed.

Lemma last_suffix_Z (l1 l2 : list Z) (t : Z) :
  l1 `suffix_of` l2 -> last l1 = Some t -> last l2 = Some t.
Proof. intros [k ->] Hl. now rewrite last_app, Hl. Qed.

(** What a tick of a signal leaves in its history: the dates that
    survived the pruning, followed by the tick's date when it did not
    fail. *)
Lemma tick_history_times {R : Rounding} (w : World) (op : Op) (sig : Signal) (t : Z) :
  signal_of op = Some sig ->
  tick_time op = Some t ->
  exists retained,
    retained `suffix_of` history_times sig (self w)
    /\ (history_times sig (self (exec op w)) = retained ++ [t]
        \/ (history_times sig (self (exec op w)) = retained
            /\ logged (exec op w) <> logged w)).
Proof.
  intros Hsig Ht.
  destruct op as [| | | | |now probe|now|ev]; try discriminate Hsig;
    inversion Hsig; subst sig; clear Hsig; inversion Ht; subst t; clear Ht.
  - destruct probe as [err|mi].
    + exists (times (memorySnapshots (self w))). split; [reflexivity|].
      right. rewrite exec_memory_fail. simpl. split; [reflexivity | apply cons_neq_self].
    + exists (times (_pruneSnapshots (snapshotHistoryMillis (self w))
                       (memorySnapshots (self w)) now)).
      split; [apply times_prune|]. left.
      rewrite exec_memory_ok. simpl. unfold times at 1. now rewrite fmap_app.
  - exists (times (_pruneSnapshots (snapshotHistoryMillis (self w))
                     (eventLoopSnapshots (self w)) now)).
    split; [apply times_prune|].
    destruct (last (_pruneSnapshots (snapshotHistoryMillis (self w))
                      (eventLoopSnapshots (self w)) now)) as [e|] eqn:Hl.
    + left. rewrite (exec_eventLoop_ok _ _ _ Hl). simpl. unfold times at 1.
      rewrite fmap_app. simpl.
      change (createdAt (eventLoopSnapshot_of (self w) now (el_createdAt e)))
        with (el_createdAt (eventLoopSnapshot_of (self w) now (el_createdAt e))).
      now rewrite eventLoopSnapshot_of_createdAt.
    + right. rewrite (exec_eventLoop_fail _ _ Hl). simpl.
      split; [reflexivity | apply cons_neq_self].
  - exists (times (_pruneSnapshots (snapshotHistoryMillis (self w))
                     (cpuSnapshots (self w)) (ev_createdAt ev))).
    split; [apply times_prune|]. left.
    rewrite exec_cpu. simpl. unfold times at 1. now rewrite fmap_app.
Qed.

(** X12: date order is kept: when the [createdAt] values of a signal's
    history are non-decreasing and the date of a tick of that signal is not
    before the last of them, they are non-decreasing after the tick too,
    whether it succeeds or fails. *)
Theorem tick_keeps_date_order {R : Rounding} (w : World) (op : Op) (sig : Signal) (t : Z) :
  signal_of op = Some sig ->
  tick_time op = Some t ->
  nondecreasing (history_times sig (self w)) ->
  (forall t0, last (history_times sig (self w)) = Some t0 -> t0 <= t) ->
  nondecreasing (history_times sig (self (exec op w))).
Proof.
  intros Hsig Ht Hnd Hlast.
  destruct (tick_history_times w op sig t Hsig Ht) as (retained & Hsuf & [-> | [-> _]]).
  - apply adjacent_snoc.
    + now apply (adjacent_suffix _ _ _ Hsuf).
    + intros t0 Ht0. apply Hlast. now apply (last_suffix_Z _ _ _ Hsuf).
  - now apply (adjacent_suffix _ _ _ Hsuf).
Qed.

Lemma tick_keeps_date_order_witness :
  let w := execs [OpSnapshotCpu {| ev_createdAt := 0; isCpuOverloaded := false |};
                  OpSnapshotCpu {| ev_createdAt := 10; isCpuOverloaded := true |}]
             (init default_options) in
  nondecreasing
    (history_times Cpu
       (self (exec (OpSnapshotCpu {| ev_createdAt := 10; isCpuOverloaded := false |}) w))).
Proof.
  intros w.
  apply (tick_keeps_date_order w
           (OpSnapshotCpu {| ev_createdAt := 10; isCpuOverloaded := false |}) Cpu 10).
  - reflexivity.
  - reflexivity.
  - subst w. vm_compute. repeat split; discriminate.
  - subst w. vm_compute. intros t0 Ht0. inversion Ht0. discriminate.
Defined.

(** ** Event-loop snapshots *)

(** X13: after any sequence of calls on a freshly constructed Snapshotter,
    no event-loop snapshot in the history has a negative [exceededMillis],
    and each one that is not flagged overloaded has [exceededMillis] equal
    to zero. *)
Theorem exceededMillis_never_negative {R : Rounding} (options : Options) (ops : list Op) :
  Forall (fun s => (0 <= exceededMillis s)%Q
                   /\ (el_isOverloaded s = false -> (exceededMillis s == 0)%Q))
    (eventLoopSnapshots (self (execs ops (init options)))).
Proof.
  apply execs_eventLoop_Forall; [| |constructor].
  - intros now. simpl. split; [discriminate | reflexivity].
  - intros s now t Hmb.
    assert (Hrep : representable (maxBlockedMillis s)).
    { unfold representable. rewrite Hmb. apply init_maxBlockedMillis_representable. }
    pose proof (eventLoopSnapshot_of_sign s now t Hrep) as Hsign. simpl in Hsign.
    rewrite eventLoopSnapshot_of_isOverloaded, eventLoopSnapshot_of_exceededMillis.
    set (delta := round (inject_Z (now - t) - eventLoopSnapshotIntervalMillis s)%Q) in *.
    unfold Math_max.
    destruct (Qle_bool (round (delta - maxBlockedMillis s)) 0) eqn:E.
    + split; [discriminate | reflexivity].
    + apply Qle_bool_false_iff in E. split; [now apply Qlt_le_weak|].
      intros Hflag. apply Qlt_bool_false_iff in Hflag.
      apply Hsign in E. exfalso. apply (Qlt_not_le _ _ E Hflag).
Qed.

Lemma prune_nil_iff {A : Type} `{HasCreatedAt A} (H_ms : Q) (l : list A) (now : Z) :
  _pruneSnapshots H_ms l now = [] <-> Forall (is_old H_ms now) l.
Proof.
  split.
  - intros Hnil. induction l as [|x l IH]; [constructor|].
    rewrite prune_cons in Hnil.
    destruct (Qlt_bool H_ms (inject_Z (now - createdAt x))) eqn:E; [|discriminate].
    constructor; [now apply Qlt_bool_iff in E | now apply IH].
  - apply prune_all_old.
Qed.

(** X14: an event-loop tick fails (its exception is caught and logged)
    exactly when every entry of the history, if any, is older than
    [snapshotHistoryMillis] at [now]; in every other case it logs nothing
    and appends one snapshot dated [now] to the pruned history. *)
Theorem eventLoop_tick_fails_iff_all_old {R : Rounding} (w : World) (now : Z) :
  let history := eventLoopSnapshots (self w) in
  let w' := exec (OpSnapshotEventLoop now) w in
  (logged w' <> logged w <-> Forall (is_old (snapshotHistoryMillis (self w)) now) history)
  /\ (logged w' = logged w ->
      exists s,
        eventLoopSnapshots (self w') =
          _pruneSnapshots (snapshotHistoryMillis (self w)) history now ++ [s]
        /\ el_createdAt s = now).
Proof.
  intros history w'. unfold w', history.
  destruct (last (_pruneSnapshots (snapshotHistoryMillis (self w))
                    (eventLoopSnapshots (self w)) now)) as [e|] eqn:Hl.
  - rewrite (exec_eventLoop_ok _ _ _ Hl). simpl. split.
    + split; [intros Hneq; now contradiction Hneq|].
      intros Hold. apply prune_nil_iff in Hold.
      change (@_pruneSnapshots EventLoopSnapshot el_HasCreatedAt
                (snapshotHistoryMillis (self w)) (eventLoopSnapshots (self w)) now = [])
        in Hold.
      rewrite Hold in Hl. discriminate Hl.
    + intros _. eexists. split; [reflexivity | apply eventLoopSnapshot_of_createdAt].
  - rewrite (exec_eventLoop_fail _ _ Hl). simpl. split.
    + split.
      * intros _. apply last_None in Hl. now apply prune_nil_iff in Hl.
      * intros _. apply cons_neq_self.
    + intros Heq. now apply cons_neq_self in Heq.
Qed.

Lemma eventLoop_tick_fails_iff_all_old_witness :
  let w := execs [OpStart 0 (inr (measured 0)) false 0 None] (init default_options) in
  exists s,
    eventLoopSnapshots (self (exec (OpSnapshotEventLoop 500) w)) =
      _pruneSnapshots (snapshotHistoryMillis (self w)) (eventLoopSnapshots (self w)) 500 ++ [s]
    /\ el_createdAt s = 500.
Proof.
  intros w.
  destruct (eventLoop_tick_fails_iff_all_old w 500) as [_ Happ].
  apply Happ. reflexivity.
Defined.

(** * Properties of the Session *)

Module SessionFacts.
Import Session.

Lemma call_frame {R : Rounding} (B : list Z) (st : State) (c : Call) :
  id (session (call B st c)) = id (session st)
  /\ maxErrorScore (session (call B st c)) = maxErrorScore (session st)
  /\ errorScoreDecrement (session (call B st c)) = errorScoreDecrement (session st)
  /\ expiresAt (session (call B st c)) = expiresAt (session st)
  /\ createdAt (session (call B st c)) = createdAt (session st)
  /\ maxUsageCount (session (call B st c)) = maxUsageCount (session st)
  /\ maxAgeSecs (session (call B st c)) = maxAgeSecs (session st).
Proof.
  destruct c as [| | |code custom]; simpl.
  - unfold markGood. destruct (Qlt_bool 0 (errorScore (session st))); simpl; auto 10.
  - auto 10.
  - auto 10.
  - unfold retireOnBlockedStatusCodes.
    destruct (existsb (Z.eqb code) (B ++ custom)); simpl; auto 10.
Qed.

Lemma call_usage {R : Rounding} (B : list Z) (st : State) (c : Call) :
  (usageCount (session (call B st c))
   == usageCount (session st) + (if uses B c then 1 else 0))%Q.
Proof.
  destruct c as [| | |code custom]; simpl.
  - unfold markGood. destruct (Qlt_bool 0 (errorScore (session st))); simpl; ring.
  - ring.
  - ring.
  - unfold retireOnBlockedStatusCodes.
    destruct (existsb (Z.eqb code) (B ++ custom)); simpl; ring.
Qed.

Lemma calls_snoc {R : Rounding} (B : list Z) (st : State) (cs : list Call) (c : Call) :
  calls B st (cs ++ [c]) = call B (calls B st cs) c.
Proof. unfold calls. now rewrite foldl_snoc. Qed.

Lemma calls_frame {R : Rounding} (B : list Z) (st : State) (cs : list Call) :
  expiresAt (session (calls B st cs)) = expiresAt (session st)
  /\ maxUsageCount (session (calls B st cs)) = maxUsageCount (session st)
  /\ maxErrorScore (session (calls B st cs)) = maxErrorScore (session st)
  /\ errorScoreDecrement (session (calls B st cs)) = errorScoreDecrement (session st).
Proof.
  induction cs as [|c cs IH] using rev_ind; [auto|].
  rewrite calls_snoc.
  destruct (call_frame B (calls B st cs) c) as (_ & E1 & E2 & E3 & _ & E4 & _).
  destruct IH as (I1 & I2 & I3 & I4).
  rewrite E1, E2, E3, E4. auto.
Qed.

Lemma calls_usage {R : Rounding} (B : list Z) (st : State) (cs : list Call) :
  (usageCount (session (calls B st cs))
   == usageCount (session st)
      + inject_Z (Z.of_nat (length (List.filter (uses B) cs))))%Q.
Proof.
  induction cs as [|c cs IH] using rev_ind; [simpl; ring|].
  rewrite calls_snoc, call_usage, IH, List.filter_app, length_app.
  rewrite Nat2Z.inj_add, inject_Z_plus. simpl.
  destruct (uses B c); simpl; ring.
Qed.

(** A rounded number is not below a double that the exact number is
    not below. *)
Lemma round_ge {R : Rounding} (x y : Q) :
  representable x -> (x <= y)%Q -> (x <= round y)%Q.
Proof.
  intros Hx Hle. unfold representable in Hx. rewrite <- Hx. now apply round_monotone.
Qed.


End SessionFacts.




(** X17: a session that has reached its maximum usage count, or that has
    expired, is not usable after any further calls at any later date: no
    method lowers [usageCount] or moves [expiresAt]. *)
Theorem unusable_for_good {R : Rounding} (STATUS_CODES_BLOCKED : list Z)
    (st : Session.State) (cs : list Session.Call) (now now' : Z) :
  Session.isMaxUsageCountReached (Session.session st) = true
  \/ Session.isExpired (Session.session st) now = true ->
  now <= now' ->
  Session.isUsable (Session.session (Session.calls STATUS_CODES_BLOCKED st cs)) now'
  = false.
Proof.
  intros Hdone Hlater.
  destruct (SessionFacts.calls_frame STATUS_CODES_BLOCKED st cs) as (Hexp & Hmax & _).
  pose proof (SessionFacts.calls_usage STATUS_CODES_BLOCKED st cs) as Huse.
  unfold Session.isUsable.
  destruct Hdone as [Hreached | Hexpired].
  - assert (Hr : Session.isMaxUsageCountReached
                   (Session.session (Session.calls STATUS_CODES_BLOCKED st cs)) = true).
    { unfold Session.isMaxUsageCountReached in *. apply Qle_bool_iff.
      apply Qle_bool_iff in Hreached. rewrite Hmax, Huse.
      assert (Hn : (0 <= inject_Z (Z.of_nat
                 (length (List.filter (Session.uses STATUS_CODES_BLOCKED) cs))))%Q).
      { change 0%Q with (inject_Z 0). rewrite <- Zle_Qle. lia. }
      lra. }
    rewrite Hr. now rewrite andb_false_r.
  - assert (He : Session.isExpired
                   (Session.session (Session.calls STATUS_CODES_BLOCKED st cs)) now'
                 = true).
    { unfold Session.isExpired in *. rewrite Hexp. apply Z.leb_le.
      apply Z.leb_le in Hexpired. lia. }
    rewrite He. simpl. now rewrite andb_false_r.
Qed.

Lemma unusable_for_good_witness :
  Session.isUsable
    (Session.session
       (Session.calls Session.blocked_codes
          Session.fresh_state
          [Session.MarkGood; Session.MarkBad]))
    3000001 = false.
Proof.
  apply (unusable_for_good Session.blocked_codes
           Session.fresh_state
           [Session.MarkGood; Session.MarkBad] 3000000 3000001).
  - right. reflexivity.
  - lia.
Defined.

Lemma errorScore_bounded_step {R : Rounding} (B : list Z) (st : Session.State)
    (c : Session.Call) :
  let s := Session.session st in
  representable (- Session.errorScoreDecrement s)%Q ->
  (0 <= Session.maxErrorScore s)%Q ->
  (- Session.errorScoreDecrement s <= Session.errorScore s)%Q ->
  (- Session.errorScoreDecrement s
   <= Session.errorScore (Session.session (Session.call B st c)))%Q.
Proof.
  intros s Hrep Hmax Hlow.
  assert (Hretire : (- Session.errorScoreDecrement s
                     <= Session.errorScore (Session.session (Session.retire st)))%Q).
  { simpl. fold s. apply SessionFacts.round_ge; [exact Hrep | lra]. }
  destruct c as [| | |code custom]; simpl.
  - unfold Session.markGood. fold s.
    destruct (Qlt_bool 0 (Session.errorScore s)) eqn:E; simpl; [|exact Hlow].
    apply Qlt_bool_iff in E.
    apply SessionFacts.round_ge; [exact Hrep | lra].
  - fold s. apply SessionFacts.round_ge; [exact Hrep | lra].
  - exact Hretire.
  - unfold Session.retireOnBlockedStatusCodes.
    destruct (existsb (Z.eqb code) (B ++ custom)); simpl; [exact Hretire | exact Hlow].
Qed.

(** X18: [errorScore] never falls below [-errorScoreDecrement], whatever
    calls are made: [markGood()] lowers only a score that is positive, by
    one decrement, and no other call lowers a score below that bound.
    [errorScoreDecrement] is a double, [maxErrorScore] is not negative, and
    the bound holds before the calls. *)
Theorem errorScore_bounded_below {R : Rounding} (STATUS_CODES_BLOCKED : list Z)
    (st : Session.State) (cs : list Session.Call) :
  let s := Session.session st in
  representable (- Session.errorScoreDecrement s)%Q ->
  (0 <= Session.maxErrorScore s)%Q ->
  (- Session.errorScoreDecrement s <= Session.errorScore s)%Q ->
  (- Session.errorScoreDecrement s
   <= Session.errorScore (Session.session (Session.calls STATUS_CODES_BLOCKED st cs)))%Q.
Proof.
  intros s Hrep Hmax Hlow.
  induction cs as [|c cs IH] using rev_ind; [exact Hlow|].
  rewrite SessionFacts.calls_snoc.
  destruct (SessionFacts.calls_frame STATUS_CODES_BLOCKED st cs) as (_ & _ & Em & Ed).
  fold s in Em, Ed. rewrite <- Ed.
  apply errorScore_bounded_step; rewrite ?Ed, ?Em; assumption.
Qed.

Lemma errorScore_bounded_below_witness :
  (- (1 # 2)
   <= Session.errorScore
        (Session.session
           (Session.calls Session.blocked_codes Session.fresh_state
              [Session.MarkBad; Session.MarkGood; Session.MarkGood; Session.MarkGood])))%Q.
Proof.
  apply (errorScore_bounded_below Session.blocked_codes Session.fresh_state
           [Session.MarkBad; Session.MarkGood; Session.MarkGood; Session.MarkGood]).
  - reflexivity.
  - vm_compute. discriminate.
  - vm_compute. discriminate.
Defined.



(** X20: [retireOnBlockedStatusCodes()] returns true exactly when the
    status code is among [STATUS_CODES_BLOCKED] or the custom codes; it then
    does what [retire()] does, emitting one more event, and otherwise
    changes nothing and emits nothing. *)
Theorem retireOnBlockedStatusCodes_outcome {R : Rounding} (STATUS_CODES_BLOCKED : list Z)
    (statusCode : Z) (blockedStatusCodes : list Z) (st : Session.State) :
  let result :=
    Session.retireOnBlockedStatusCodes STATUS_CODES_BLOCKED statusCode
      blockedStatusCodes st in
  (fst result = true <-> In statusCode STATUS_CODES_BLOCKED \/ In statusCode blockedStatusCodes)
  /\ (fst result = true ->
      snd result = Session.retire st
      /\ length (Session.emitted (snd result)) = S (length (Session.emitted st)))
  /\ (fst result = false -> snd result = st).
Proof.
  intros result. unfold result, Session.retireOnBlockedStatusCodes.
  destruct (existsb (Z.eqb statusCode) (STATUS_CODES_BLOCKED ++ blockedStatusCodes)) eqn:E;
    simpl.
  - split; [|split].
    + split; [|reflexivity]. intros _.
      apply existsb_exists in E. destruct E as (x & Hin & Heq).
      apply Z.eqb_eq in Heq. subst x. now apply in_app_or in Hin.
    + intros _. split; [reflexivity|]. rewrite length_app. simpl. lia.
    + discriminate.
  - split; [|split].
    + split; [discriminate|]. intros Hin. exfalso.
      assert (Hex : existsb (Z.eqb statusCode) (STATUS_CODES_BLOCKED ++ blockedStatusCodes)
                    = true).
      { apply existsb_exists. exists statusCode. split; [|apply Z.eqb_refl].
        apply in_or_app. exact Hin. }
      congruence.
    + discriminate.
    + reflexivity.
Qed.

Lemma retireOnBlockedStatusCodes_outcome_witness :
  let st := Session.fresh_state in
  snd (Session.retireOnBlockedStatusCodes Session.blocked_codes 418 [418] st)
  = Session.retire st
  /\ length (Session.emitted
               (snd (Session.retireOnBlockedStatusCodes Session.blocked_codes 418 [418]
                       st)))
     = S (length (Session.emitted st)).
Proof.
  intros st.
  destruct (retireOnBlockedStatusCodes_outcome Session.blocked_codes 418 [418] st)
    as (_ & Hretired & _).
  apply Hretired. reflexivity.
Defined.

Lemma Date_of_inject_Z (k : Z) : Session.Date_of (inject_Z k) = k.
Proof. unfold Session.Date_of. simpl. apply Z.quot_1_r. Qed.

(** The integral part depends on the number only. *)
Lemma Date_of_compat (x y : Q) : (x == y)%Q -> Session.Date_of x = Session.Date_of y.
Proof.
  unfold Qeq, Session.Date_of. destruct x as [a b], y as [c d]. simpl. intros Heq.
  rewrite <- (Z.quot_mul_cancel_r a (Z.pos b) (Z.pos d)) by lia.
  rewrite <- (Z.quot_mul_cancel_r c (Z.pos d) (Z.pos b)) by lia.
  now rewrite Heq, (Z.mul_comm (Z.pos b)).
Qed.

(** X21: the constructor succeeds exactly when the object given as
    [sessionPool] is present with a constructor named [SessionPool] and,
    when no [expiresAt] is given, [Date.now() + maxAgeSecs * 1000] is within
    the range of dates (it throws on the Invalid Date otherwise).  With no
    other option than the pool, the session it then builds expires at the
    integral part of [Date.now() + 3000 * 1000] and is usable at date [t]
    exactly when [t] is before that date: when the product and the sum are
    doubles as they are, exactly when [t < dateNow + 3000000], that is
    until the session is 3000 seconds old. *)
Theorem fresh_session_usable_window {R : Rounding} (options : Session.SessionOptions)
    (now dateNow t : Z) (randomId : string) :
  let maxAgeSecs := default 3000%Q (Session.opt_maxAgeSecs options) in
  ((exists s, Session.constructor options now dateNow randomId = inr s)
   <-> Session.opt_sessionPool options = Some "SessionPool"%string
       /\ (Session.opt_expiresAt options = None ->
           (Qabs (Session.expiry dateNow maxAgeSecs) <= 8640000000000000)%Q))
  /\ (options = Session.only_pool ->
      (Qabs (Session.expiry dateNow 3000) <= 8640000000000000)%Q ->
      exists s,
        Session.constructor options now dateNow randomId = inr s
        /\ Session.id s = ("session_" ++ randomId)%string
        /\ Session.createdAt s = now
        /\ Session.expiresAt s = Session.Date_of (Session.expiry dateNow 3000)
        /\ (Session.isUsable s t = true <-> t < Session.expiresAt s)
        /\ (representable (3000 * 1000)%Q ->
            representable (inject_Z (dateNow + 3000000)) ->
            Session.expiresAt s = dateNow + 3000000)).
Proof.
  intros maxAgeSecs. split.
  - unfold Session.constructor. fold maxAgeSecs.
    destruct (Session.opt_expiresAt options) as [date|].
    + destruct (Session.opt_sessionPool options) as [name|].
      * destruct (String.eqb name "SessionPool") eqn:E; simpl.
        -- apply String.eqb_eq in E. subst name.
           split; [intros _; split; [reflexivity | discriminate] | intros _; eauto].
        -- split; [intros [s Hs]; discriminate Hs|].
           intros [Hname _]. inversion Hname; subst name. discriminate E.
      * split; [intros [s Hs]; discriminate Hs | intros [Hname _]; discriminate Hname].
    + unfold Session.new_Date.
      destruct (Qle_bool (Qabs (Session.expiry dateNow maxAgeSecs)) 8640000000000000)
        eqn:Ev.
      * apply Qle_bool_iff in Ev.
        destruct (Session.opt_sessionPool options) as [name|].
        -- destruct (String.eqb name "SessionPool") eqn:E; simpl.
           ++ apply String.eqb_eq in E. subst name.
              split; [intros _; split; [reflexivity | intros _; exact Ev] | intros _; eauto].
           ++ split; [intros [s Hs]; discriminate Hs|].
              intros [Hname _]. inversion Hname; subst name. discriminate E.
        -- split; [intros [s Hs]; discriminate Hs | intros [Hname _]; discriminate Hname].
      * apply Qle_bool_false_iff in Ev.
        split; [intros [s Hs]; discriminate Hs|].
        intros [_ Hvalid]. exfalso.
        apply (Qlt_not_le _ _ Ev). now apply Hvalid.
  - intros -> Hvalid. apply Qle_bool_iff in Hvalid.
    unfold Session.constructor, Session.new_Date. simpl. rewrite Hvalid. simpl.
    eexists. split; [reflexivity|]. split; [reflexivity|].
    split; [reflexivity|]. split; [reflexivity|]. split.
    + unfold Session.isUsable, Session.isBlocked, Session.isExpired,
        Session.isMaxUsageCountReached. simpl.
      destruct (Session.Date_of (Session.expiry dateNow 3000) <=? t) eqn:E.
      * apply Z.leb_le in E. simpl. split; [discriminate | lia].
      * apply Z.leb_gt in E. simpl. split; [intros _; exact E | reflexivity].
    + intros Hprod Hsum. simpl. unfold representable in Hprod, Hsum.
      rewrite <- (Date_of_inject_Z (dateNow + 3000000)). apply Date_of_compat.
      unfold Session.expiry. rewrite <- Hsum. apply round_compat.
      rewrite Hprod, inject_Z_plus. reflexivity.
Qed.

Lemma fresh_session_usable_window_witness :
  exists s,
    Session.constructor Session.only_pool 0 1 "abc" = inr s
    /\ Session.id s = "session_abc"%string
    /\ Session.createdAt s = 0
    /\ Session.expiresAt s = Session.Date_of (Session.expiry 1 3000)
    /\ (Session.isUsable s 2999999 = true <-> 2999999 < Session.expiresAt s)
    /\ (representable (3000 * 1000)%Q ->
        representable (inject_Z (1 + 3000000)) ->
        Session.expiresAt s = 1 + 3000000).
Proof.
  destruct (fresh_session_usable_window Session.only_pool 0 1 2999999 "abc")
    as [_ Hfresh].
  apply Hfresh; [reflexivity | vm_compute; discriminate].
Defined.

(** * Properties of the Configuration *)

Module ConfigurationFacts.
Import Configuration.

Lemma in_array_INTEGER_VARS (proto : list string) (key : string) :
  in_array proto key INTEGER_VARS
  = bool_decide (key ∈ INTEGER_VARS_keys) || bool_decide (key ∈ proto).
Proof. reflexivity. Qed.

Lemma in_array_BOOLEAN_VARS (proto : list string) (key : string) :
  in_array proto key BOOLEAN_VARS
  = bool_decide (key ∈ BOOLEAN_VARS_keys) || bool_decide (key ∈ proto).
Proof. reflexivity. Qed.

Lemma BOOLEAN_keys_among_INTEGER_keys (key : string) :
  key ∈ BOOLEAN_VARS_keys -> key ∈ INTEGER_VARS_keys.
Proof.
  unfold BOOLEAN_VARS_keys, INTEGER_VARS_keys. intros Hin.
  apply elem_of_cons in Hin. destruct Hin as [->|Hin];
    [apply (bool_decide_unpack _); reflexivity|].
  apply elem_of_cons in Hin. destruct Hin as [->|Hin];
    [apply (bool_decide_unpack _); reflexivity|].
  now apply elem_of_nil in Hin.
Qed.

Lemma cast_not_index (ToNumber : Value -> Value) (toLowerCase : string -> string)
    (proto : list string) (key : string) (value : Value) (fromEnv : bool) :
  key ∉ INTEGER_VARS_keys ->
  key ∉ proto ->
  _cast ToNumber toLowerCase proto key value fromEnv = Returned value.
Proof.
  intros Hnot Hproto. unfold _cast.
  rewrite in_array_INTEGER_VARS, in_array_BOOLEAN_VARS.
  rewrite (bool_decide_eq_false_2 (key ∈ proto)) by exact Hproto.
  rewrite bool_decide_eq_false_2 by exact Hnot.
  rewrite bool_decide_eq_false_2; [reflexivity|].
  intros Hin. apply Hnot. now apply BOOLEAN_keys_among_INTEGER_keys.
Qed.

Lemma cast_returns (ToNumber : Value -> Value) (toLowerCase : string -> string)
    (proto : list string) (key : string) (value : Value) (fromEnv : bool) :
  _cast ToNumber toLowerCase proto key value fromEnv = Returned value
  \/ _cast ToNumber toLowerCase proto key value fromEnv = Returned (ToNumber value).
Proof.
  unfold _cast. rewrite in_array_INTEGER_VARS, in_array_BOOLEAN_VARS.
  destruct (bool_decide (key ∈ proto)) eqn:Ep.
  - rewrite orb_true_r. now right.
  - rewrite !orb_false_r.
    destruct (bool_decide (key ∈ INTEGER_VARS_keys)) eqn:Ei; [now right|].
    rewrite bool_decide_eq_false_2; [now left|].
    intros Hin. apply bool_decide_eq_false in Ei. apply Ei.
    now apply BOOLEAN_keys_among_INTEGER_keys.
Qed.

Lemma named_not_index (key : string) :
  key ∈ INTEGER_VARS ++ BOOLEAN_VARS -> key ∉ INTEGER_VARS_keys.
Proof.
  intros Hin. unfold INTEGER_VARS, BOOLEAN_VARS in Hin. simpl in Hin.
  repeat (apply elem_of_cons in Hin; destruct Hin as [->|Hin];
          [apply (bool_decide_eq_false_1 _); reflexivity|]).
  now apply elem_of_nil in Hin.
Qed.


End ConfigurationFacts.

(** X22: [_cast] never throws and never reaches its boolean conversion:
    it returns either the value unchanged or the value converted to a
    number, and it converts only when the key is an index of the array
    [INTEGER_VARS], [length], or the name of an inherited array property;
    for the names listed in [INTEGER_VARS] and [BOOLEAN_VARS] themselves
    (none of which is an inherited property name) it returns the value
    unchanged. *)
Theorem cast_only_array_indices (ToNumber : Configuration.Value -> Configuration.Value)
    (toLowerCase : string -> string) (Array_prototype : list string)
    (key : string) (value : Configuration.Value) (fromEnv : bool) :
  (Configuration._cast ToNumber toLowerCase Array_prototype key value fromEnv
   = Configuration.Returned value
   \/ Configuration._cast ToNumber toLowerCase Array_prototype key value fromEnv
      = Configuration.Returned (ToNumber value))
  /\ (key ∈ Configuration.INTEGER_VARS_keys \/ key ∈ Array_prototype ->
      Configuration._cast ToNumber toLowerCase Array_prototype key value fromEnv
      = Configuration.Returned (ToNumber value))
  /\ (key ∉ Configuration.INTEGER_VARS_keys -> key ∉ Array_prototype ->
      Configuration._cast ToNumber toLowerCase Array_prototype key value fromEnv
      = Configuration.Returned value)
  /\ (key ∈ Configuration.INTEGER_VARS ++ Configuration.BOOLEAN_VARS ->
      key ∉ Array_prototype ->
      Configuration._cast ToNumber toLowerCase Array_prototype key value fromEnv
      = Configuration.Returned value).
Proof.
  split; [apply ConfigurationFacts.cast_returns|]. split; [|split].
  - intros Hin. unfold Configuration._cast.
    rewrite ConfigurationFacts.in_array_INTEGER_VARS.
    destruct Hin as [Hin|Hin].
    + now rewrite (bool_decide_eq_true_2 _ Hin).
    + rewrite (bool_decide_eq_true_2 (key ∈ Array_prototype) Hin).
      now rewrite orb_true_r.
  - apply ConfigurationFacts.cast_not_index.
  - intros Hin. apply ConfigurationFacts.cast_not_index.
    now apply ConfigurationFacts.named_not_index.
Qed.

Lemma cast_only_array_indices_witness :
  Configuration._cast (fun v => Configuration.VNumber 0) (fun s => s)
    Configuration.example_Array_prototype
    "localStorageEnableWalMode" (Configuration.VString "false") true
  = Configuration.Returned (Configuration.VString "false").
Proof.
  destruct (cast_only_array_indices (fun v => Configuration.VNumber 0) (fun s => s)
              Configuration.example_Array_prototype
              "localStorageEnableWalMode" (Configuration.VString "false") true)
    as (_ & _ & _ & Hnamed).
  apply Hnamed.
  - apply (bool_decide_unpack _). reflexivity.
  - apply (bool_decide_eq_false_1 _). reflexivity.
Defined.

(** X23: an environment variable wins: when the environment has a value
    for a key that is not an index of [INTEGER_VARS], [length] or an
    inherited array property name, [get] returns that value, as the string
    it is, whatever the options hold (also after [set] of that key) and
    whatever default is passed. *)
Theorem get_prefers_environment (ENV_VARS env : gmap string string)
    (ToNumber : Configuration.Value -> Configuration.Value)
    (toLowerCase : string -> string) (Array_prototype : list string)
    (c : Configuration.Configuration)
    (key v : string) (value defaultValue : Configuration.Value) :
  Configuration.envValue ENV_VARS env key = Some v ->
  key ∉ Configuration.INTEGER_VARS_keys ->
  key ∉ Array_prototype ->
  Configuration.get ENV_VARS env ToNumber toLowerCase Array_prototype c key defaultValue
  = Configuration.Returned (Configuration.VString v)
  /\ Configuration.get ENV_VARS env ToNumber toLowerCase Array_prototype
       (Configuration.set c key value) key defaultValue
     = Configuration.Returned (Configuration.VString v).
Proof.
  intros Henv Hkey Hproto. unfold Configuration.get. rewrite Henv.
  split; now apply ConfigurationFacts.cast_not_index.
Qed.

Lemma get_prefers_environment_witness :
  Configuration.get Configuration.example_ENV_VARS Configuration.example_env
    (fun v => Configuration.VNumber 0) (fun s => s) Configuration.example_Array_prototype
    {| Configuration.options := ∅ |} "proxyPort" Configuration.VUndefined
  = Configuration.Returned (Configuration.VString "1234").
Proof.
  destruct (get_prefers_environment Configuration.example_ENV_VARS Configuration.example_env
              (fun v => Configuration.VNumber 0) (fun s => s)
              Configuration.example_Array_prototype
              {| Configuration.options := ∅ |} "proxyPort" "1234"
              Configuration.VUndefined Configuration.VUndefined) as [Hget _].
  - reflexivity.
  - apply (bool_decide_eq_false_1 _). reflexivity.
  - apply (bool_decide_eq_false_1 _). reflexivity.
  - exact Hget.
Defined.





(** X26: without environment values for [localStorageDir] and [token], the
    constructor never fails; it keeps the options as given when one of the
    two is truthy there, and otherwise stores the default storage directory
    under [localStorageDir] and warns; so afterwards [get] returns a truthy
    value for [localStorageDir] or for [token] (the directory path not
    being empty). *)
Theorem constructor_storage_or_token (ENV_VARS env : gmap string string)
    (ToNumber : Configuration.Value -> Configuration.Value)
    (toLowerCase : string -> string) (Array_prototype : list string)
    (opts : gmap string Configuration.Value) (dir : string) :
  Configuration.envValue ENV_VARS env "localStorageDir" = None ->
  Configuration.envValue ENV_VARS env "token" = None ->
  dir <> ""%string ->
  exists r,
    Configuration.constructor ENV_VARS env ToNumber toLowerCase Array_prototype opts dir
    = Some r
    /\ (Configuration.warned r = false -> Configuration.options (Configuration.config r) = opts)
    /\ (Configuration.warned r = true ->
        Configuration.options (Configuration.config r)
        = <["localStorageDir"%string := Configuration.VString dir]> opts)
    /\ exists v,
         (Configuration.get ENV_VARS env ToNumber toLowerCase Array_prototype
            (Configuration.config r) "localStorageDir" Configuration.VUndefined
          = Configuration.Returned v
          \/ Configuration.get ENV_VARS env ToNumber toLowerCase Array_prototype
               (Configuration.config r) "token" Configuration.VUndefined
             = Configuration.Returned v)
         /\ Configuration.truthy v = true.
Proof.
  intros Hdir Htoken Hne.
  assert (Hget : forall c key, Configuration.envValue ENV_VARS env key = None ->
            Configuration.DEFAULTS !! key = None ->
            Configuration.get ENV_VARS env ToNumber toLowerCase Array_prototype
              c key Configuration.VUndefined
            = Configuration.Returned (default Configuration.VUndefined
                                        (Configuration.options c !! key))).
  { intros c key Henv Hdef. unfold Configuration.get. rewrite Henv, Hdef.
    destruct (Configuration.options c !! key); reflexivity. }
  assert (Hd1 : Configuration.DEFAULTS !! "localStorageDir"%string = None) by reflexivity.
  assert (Hd2 : Configuration.DEFAULTS !! "token"%string = None) by reflexivity.
  unfold Configuration.constructor.
  rewrite (Hget _ _ Hdir Hd1). simpl Configuration.options.
  destruct (Configuration.truthy (default Configuration.VUndefined
                                    (opts !! "localStorageDir"%string))) eqn:E1.
  - eexists. split; [reflexivity|]. simpl. split; [reflexivity|]. split; [discriminate|].
    eexists. split; [left; apply (Hget _ _ Hdir Hd1) | exact E1].
  - rewrite (Hget _ _ Htoken Hd2). simpl Configuration.options.
    destruct (Configuration.truthy (default Configuration.VUndefined
                                      (opts !! "token"%string))) eqn:E2.
    + eexists. split; [reflexivity|]. simpl. split; [reflexivity|]. split; [discriminate|].
      eexists. split; [right; apply (Hget _ _ Htoken Hd2) | exact E2].
    + eexists. split; [reflexivity|]. simpl. split; [discriminate|]. split; [reflexivity|].
      exists (Configuration.VString dir). split.
      * left. rewrite (Hget _ _ Hdir Hd1). simpl. now rewrite lookup_insert_eq.
      * simpl. apply negb_true_iff. now apply String.eqb_neq.
Qed.

Lemma constructor_storage_or_token_witness :
  exists r,
    Configuration.constructor Configuration.example_ENV_VARS Configuration.example_env
      (fun v => Configuration.VNumber 0) (fun s => s) Configuration.example_Array_prototype
      ∅ "/home/user/apify_storage" = Some r
    /\ (Configuration.warned r = false -> Configuration.options (Configuration.config r) = ∅)
    /\ (Configuration.warned r = true ->
        Configuration.options (Configuration.config r)
        = <["localStorageDir"%string := Configuration.VString "/home/user/apify_storage"]> ∅)
    /\ exists v,
         (Configuration.get Configuration.example_ENV_VARS Configuration.example_env
            (fun v => Configuration.VNumber 0) (fun s => s)
            Configuration.example_Array_prototype (Configuration.config r)
            "localStorageDir" Configuration.VUndefined = Configuration.Returned v
          \/ Configuration.get Configuration.example_ENV_VARS Configuration.example_env
               (fun v => Configuration.VNumber 0) (fun s => s)
               Configuration.example_Array_prototype (Configuration.config r)
               "token" Configuration.VUndefined = Configuration.Returned v)
         /\ Configuration.truthy v = true.
Proof.
  apply (constructor_storage_or_token Configuration.example_ENV_VARS
           Configuration.example_env (fun v => Configuration.VNumber 0) (fun s => s)
           Configuration.example_Array_prototype ∅ "/home/user/apify_storage").
  - reflexivity.
  - reflexivity.
  - discriminate.
Defined.

(** X27: [ENV_MAP_REVERSED] sends the option name of every entry of
    [ENV_MAP] back to the entry's environment name, except that
    [persistStateIntervalMillis], which two entries share, is sent to the
    later one, [APIFY_TEST_PERSIST_INTERVAL_MILLIS]; so [get] of
    [persistStateIntervalMillis] never reads the variable of
    [PERSIST_STATE_INTERVAL_MILLIS]. *)
Theorem ENV_MAP_REVERSED_inverts (name key : string) :
  (name, key) ∈ Configuration.ENV_MAP ->
  (name <> "PERSIST_STATE_INTERVAL_MILLIS"%string ->
   Configuration.ENV_MAP_REVERSED !! key = Some name)
  /\ Configuration.ENV_MAP_REVERSED !! "persistStateIntervalMillis"%string
     = Some "APIFY_TEST_PERSIST_INTERVAL_MILLIS"%string
  /\ forall ENV_VARS env : gmap string string,
       Configuration.envValue ENV_VARS env "persistStateIntervalMillis"
       = match env !! "APIFY_TEST_PERSIST_INTERVAL_MILLIS"%string with
         | Some v => Some v
         | None =>
           env !! default "undefined"%string
                    (ENV_VARS !! "APIFY_TEST_PERSIST_INTERVAL_MILLIS"%string)
         end.
Proof.
  intros Hin. split; [|split].
  - intros Hne. unfold Configuration.ENV_MAP in Hin.
    repeat (apply elem_of_cons in Hin; destruct Hin as [Hin|Hin];
            [inversion Hin; subst; first [reflexivity | now contradiction Hne]|]).
    now apply elem_of_nil in Hin.
  - reflexivity.
  - intros ENV_VARS env. reflexivity.
Qed.

Lemma ENV_MAP_REVERSED_inverts_witness :
  Configuration.ENV_MAP_REVERSED !! "proxyPort"%string = Some "PROXY_PORT"%string.
Proof.
  destruct (ENV_MAP_REVERSED_inverts "PROXY_PORT" "proxyPort") as [Hinv _].
  - apply (bool_decide_unpack _). reflexivity.
  - apply Hinv. discriminate.
Defined.
